(** * The sphere ray tracer of [raytraceFS], embedded in Rocq

    The fragment shader [raytraceFS] (GLSL, kept in a JavaScript string)
    consists of three procedures: [IntersectRay], [Shade] and [RayTracer].
    A [vec3] is a triple of numbers, the uniform arrays are lists, an
    [inout] parameter is a value passed in and returned.

    The shader is embedded over two kinds of numbers.

    - The exact model reads a GLSL [float] as a real number.  It has no
      rounding, no infinity and no NaN, and division by zero gives zero.
      It carries the statements about control flow, comparisons and signs
      of all three procedures.

    - The float32 model ([F32]) reads a [float] as an IEEE 754 binary32
      number and rounds after every operation.  It embeds [IntersectRay],
      and carries the statements about the distances that the routine
      computes.

    The two are related where the float32 arithmetic does not round
    ([no_rounding]): there the computed distances are the exact ones. *)

From Stdlib Require Import Reals Lra Lia ZArith List Bool.
From Stdlib Require Import SpecFloat.
From Stdlib Require Finite.
Import ListNotations.

Open Scope R_scope.

(** ** Comparisons of floats, as booleans *)

Definition Rltb (x y : R) : bool := if Rlt_dec x y then true else false.
Definition Rleb (x y : R) : bool := if Rle_dec x y then true else false.
Definition Rgtb (x y : R) : bool := Rltb y x.
Definition Rgeb (x y : R) : bool := Rleb y x.

(** ** GLSL vectors and the built-in functions the shader calls *)

Module GLSL.

Record vec3 : Type := Vec3 { x : R; y : R; z : R }.

Record vec4 : Type := Vec4 { rgb : vec3; a : R }.

Definition vec3_0 : vec3 := Vec3 0 0 0.

Definition add (u v : vec3) : vec3 := Vec3 (x u + x v) (y u + y v) (z u + z v).
Definition sub (u v : vec3) : vec3 := Vec3 (x u - x v) (y u - y v) (z u - z v).
Definition neg (u : vec3) : vec3 := Vec3 (- x u) (- y u) (- z u).
(** [vec3 * vec3] is component-wise in GLSL. *)
Definition mul (u v : vec3) : vec3 := Vec3 (x u * x v) (y u * y v) (z u * z v).
(** [vec3 * float] and [float * vec3]. *)
Definition scale (u : vec3) (k : R) : vec3 :=
  Vec3 (x u * k) (y u * k) (z u * k).
Definition lscale (k : R) (u : vec3) : vec3 :=
  Vec3 (k * x u) (k * y u) (k * z u).

Definition dot (u v : vec3) : R := x u * x v + y u * y v + z u * z v.
Definition length (u : vec3) : R := sqrt (dot u u).
(** [normalize(v)] is [v / length(v)]. *)
Definition normalize (u : vec3) : vec3 :=
  Vec3 (x u / length u) (y u / length u) (z u / length u).
(** [reflect(I, N)] is [I - 2 * dot(N, I) * N]. *)
Definition reflect (i n : vec3) : vec3 := sub i (lscale (2 * dot n i) n).
(** [max(x, y)] returns [y] if [x < y], otherwise [x]. *)
Definition max (u v : R) : R := if Rltb u v then v else u.
(** The swizzle [.xzy]. *)
Definition xzy (u : vec3) : vec3 := Vec3 (x u) (z u) (y u).

(** A reference power function on the reals: [x^y] is [exp (y * ln x)]
    for a positive base; at base zero it is [0] for a positive exponent
    and [1] otherwise, as IEEE 754 [pow] gives at [pow(0, 0)].  The GLSL
    specification leaves [pow(x, y)] undefined for [x < 0] and for
    [x = 0] with [y <= 0]. *)
Definition pow_ref (b e : R) : R :=
  if Rltb 0 b then exp (e * ln b)
  else if Rltb 0 e then 0 else 1.

End GLSL.

Import GLSL.

Declare Scope vec_scope.
Delimit Scope vec_scope with vec.
Infix "+^" := add (at level 50, left associativity) : vec_scope.
Infix "-^" := sub (at level 50, left associativity) : vec_scope.
Infix "*^" := mul (at level 40, left associativity) : vec_scope.
Infix "*|" := scale (at level 40, left associativity) : vec_scope.
Infix "|*" := lscale (at level 40, left associativity) : vec_scope.
Open Scope vec_scope.

(** ** The structs of the shader *)

Record Ray : Type := mkRay {
  pos : vec3;
  dir : vec3
}.

Record Material : Type := mkMaterial {
  k_d : vec3;   (* diffuse coefficient *)
  k_s : vec3;   (* specular coefficient *)
  n : R         (* specular exponent *)
}.

Record Sphere : Type := mkSphere {
  center : vec3;
  radius : R;
  mtl : Material
}.

Record Light : Type := mkLight {
  position : vec3;
  intensity : vec3
}.

(** The fields [position], [normal] and [mtl] of [HitInfo] carry the prefix
    [hit_]: the names [position] and [mtl] are fields of [Light] and
    [Sphere]. *)
Record HitInfo : Type := mkHitInfo {
  t : R;
  hit_position : vec3;
  hit_normal : vec3;
  hit_mtl : Material
}.

(** The assignment [hit.t = v]. *)
Definition set_t (hit : HitInfo) (v : R) : HitInfo :=
  mkHitInfo v (hit_position hit) (hit_normal hit) (hit_mtl hit).

(** The sentinel [1e30] that [IntersectRay] starts from. *)
Definition sentinel : R := 1e30.

(** The offset [0.001] of shadow and reflection rays. *)
Definition bias : R := 0.001.

(** ** The quadratic of one sphere (the locals of the loop body of
    [IntersectRay]) *)

Section Quadratic.

Variable ray : Ray.
Variable s : Sphere.

Definition oc : vec3 := pos ray -^ center s.
Definition quad_a : R := dot (dir ray) (dir ray).
Definition quad_b : R := 2 * dot oc (dir ray).
Definition quad_c : R := dot oc oc - radius s * radius s.
Definition discriminant : R := quad_b * quad_b - 4 * quad_a * quad_c.
Definition sqrt_discriminant : R := sqrt discriminant.
Definition t1 : R := (- quad_b - sqrt_discriminant) / (2 * quad_a).
Definition t2 : R := (- quad_b + sqrt_discriminant) / (2 * quad_a).

(** [float t = (t1 > 0.0) ? t1 : t2;], reached only when
    [discriminant >= 0.0]. *)
Definition candidate : option R :=
  if Rgeb discriminant 0
  then Some (if Rgtb t1 0 then t1 else t2)
  else None.

(** The record written on acceptance of the distance [tc]. *)
Definition hit_at (tc : R) : HitInfo :=
  let p := pos ray +^ tc |* dir ray in
  mkHitInfo tc p (normalize (p -^ center s)) (mtl s).

(** One iteration of the loop over the spheres, on the pair
    ([hit], [foundHit]). *)
Definition sphere_step (acc : HitInfo * bool) : HitInfo * bool :=
  match candidate with
  | Some tc =>
      if Rgtb tc 0 && Rltb tc (t (fst acc))
      then (hit_at tc, true)
      else acc
  | None => acc
  end.

End Quadratic.

(** ** The shader, over its uniforms *)

Section Shader.

(** [uniform Sphere spheres[NUM_SPHERES]], [uniform Light lights[NUM_LIGHTS]]. *)
Variable spheres : list Sphere.
Variable lights : list Light.
(** [textureCube(envMap, d).rgb], as a function of the direction [d]. *)
Variable envMap : vec3 -> vec3.
(** [uniform int bounceLimit] and the macro [MAX_BOUNCES], which the
    shader string does not define. *)
Variable bounceLimit : Z.
Variable MAX_BOUNCES : Z.
(** The built-in [pow]. *)
Variable pow : R -> R -> R.
(** The contents of a local [HitInfo] that is declared and not
    initialised. *)
Variable uninit : HitInfo.

(** [bool IntersectRay(inout HitInfo hit, Ray ray)]: the returned pair is
    the final [hit] and the returned boolean. *)
Definition IntersectRay (hit : HitInfo) (ray : Ray) : HitInfo * bool :=
  fold_left (fun acc s => sphere_step ray s acc) spheres
            (set_t hit sentinel, false).

(** *** [Shade]

    The parameters [mtl] and [position] of the shader are named [m] and
    [p] here, as these two names are record fields. *)

Section ShadeBody.

Variable m : Material.
Variables p normal view : vec3.
Variable l : Light.   (* lights[i] *)

Definition shadowRay : Ray :=
  mkRay (p +^ normal *| bias) (normalize (position l -^ p)).

Definition distanceToLight : R := length (position l -^ p).

(** The condition of the [continue]:
    [inShadow && shadowHit.t < distanceToLight]. *)
Definition shadowed : bool :=
  let (shadowHit, inShadow) := IntersectRay uninit shadowRay in
  inShadow && Rltb (t shadowHit) distanceToLight.

Definition lightDir : vec3 := normalize (position l -^ p).
Definition halfVector : vec3 := normalize (lightDir +^ view).
Definition NdotL : R := max (dot normal lightDir) 0.
Definition diffuse : vec3 := k_d m *^ intensity l *| NdotL.
Definition NdotH : R := max (dot normal halfVector) 0.
Definition specular : vec3 := k_s m *^ intensity l *| pow NdotH (n m).

(** What one light adds to [color]: [None] when the iteration is left
    by [continue], [Some (diffuse + specular)] otherwise. *)
Definition light_contribution : option vec3 :=
  if shadowed then None else Some (diffuse +^ specular).

(** One iteration of the loop over the lights, on [color]. *)
Definition light_step (color : vec3) : vec3 :=
  match light_contribution with
  | None => color
  | Some c => color +^ c
  end.

End ShadeBody.

Definition Shade (m : Material) (p normal view : vec3) : vec3 :=
  fold_left (fun color l => light_step m p normal view l color) lights vec3_0.

(** *** [RayTracer]

    The variables that the reflection loop updates: [ray], [hit], [k_s]
    and [clr]. *)
Record LoopState : Type := mkLoopState {
  ls_ray : Ray;
  ls_hit : HitInfo;
  ls_k_s : vec3;
  ls_clr : vec3
}.

(** The four ways out of the reflection loop. *)
Inductive LoopExit : Type :=
| ExitCap          (* bounce < MAX_BOUNCES fails *)
| ExitLimit        (* bounce >= bounceLimit *)
| ExitNoSpecular   (* hit.mtl.k_s.r + hit.mtl.k_s.g + hit.mtl.k_s.b <= 0.0 *)
| ExitMiss.        (* the reflection ray hits nothing *)

(** The result of the loop: the final values of its variables, and for
    the statements below the number of iterations that went past the two
    leading [break]s (each traces one reflection ray) and the exit
    taken. *)
Record LoopResult : Type := mkLoopResult {
  final : LoopState;
  iterations : nat;
  exit : LoopExit
}.

Definition specular_sum (h : HitInfo) : R :=
  x (k_s (hit_mtl h)) + y (k_s (hit_mtl h)) + z (k_s (hit_mtl h)).

(** The reflection ray [r] of an iteration. *)
Definition reflection_ray (st : LoopState) : Ray :=
  mkRay (hit_position (ls_hit st) +^ hit_normal (ls_hit st) *| bias)
        (reflect (dir (ls_ray st)) (hit_normal (ls_hit st))).

(** The loop variables after an iteration whose reflection ray hits at
    [h]: [clr += k_s * reflectedColor; ray = r; hit = h; k_s *= h.mtl.k_s]. *)
Definition hit_update (st : LoopState) (h : HitInfo) : LoopState :=
  let r := reflection_ray st in
  let reflectedView := normalize (neg (dir r)) in
  let reflectedColor :=
    Shade (hit_mtl h) (hit_position h) (hit_normal h) reflectedView in
  mkLoopState r h (ls_k_s st *^ k_s (hit_mtl h))
              (ls_clr st +^ ls_k_s st *^ reflectedColor).

(** The loop variables after an iteration whose reflection ray hits
    nothing: [clr += k_s * textureCube(envMap, r.dir.xzy).rgb]. *)
Definition miss_update (st : LoopState) : LoopState :=
  mkLoopState (ls_ray st) (ls_hit st) (ls_k_s st)
              (ls_clr st +^ ls_k_s st *^ envMap (xzy (dir (reflection_ray st)))).

(** The loop [for (int bounce=0; bounce<MAX_BOUNCES; ++bounce)]; [fuel]
    is the number of values of [bounce] still below [MAX_BOUNCES]. *)
Fixpoint reflect_loop (fuel : nat) (bounce : Z) (st : LoopState) : LoopResult :=
  match fuel with
  | O => mkLoopResult st 0 ExitCap
  | S fuel' =>
      if (bounce >=? bounceLimit)%Z then mkLoopResult st 0 ExitLimit
      else if Rleb (specular_sum (ls_hit st)) 0
      then mkLoopResult st 0 ExitNoSpecular
      else
        let (h, found) := IntersectRay uninit (reflection_ray st) in
        if found then
          let res := reflect_loop fuel' (bounce + 1)%Z (hit_update st h) in
          mkLoopResult (final res) (S (iterations res)) (exit res)
        else mkLoopResult (miss_update st) 1 ExitMiss
  end.

(** The loop variables on entry, after the primary hit [hit]. *)
Definition loop_init (ray : Ray) (hit : HitInfo) : LoopState :=
  let view := normalize (neg (dir ray)) in
  let clr := Shade (hit_mtl hit) (hit_position hit) (hit_normal hit) view in
  mkLoopState ray hit (k_s (hit_mtl hit)) clr.

Definition reflections (ray : Ray) (hit : HitInfo) : LoopResult :=
  reflect_loop (Z.to_nat MAX_BOUNCES) 0%Z (loop_init ray hit).

Definition RayTracer (ray : Ray) : vec4 :=
  let (hit, found) := IntersectRay uninit ray in
  if found
  then Vec4 (ls_clr (final (reflections ray hit))) 1
  else Vec4 (envMap (xzy (dir ray))) 0.

End Shader.

(** ** Notions used in the statements *)

(** The point of the ray at parameter [tt] lies on the surface of [s]. *)
Definition on_sphere (ray : Ray) (s : Sphere) (tt : R) : Prop :=
  let q := (pos ray +^ tt |* dir ray) -^ center s in
  dot q q = radius s * radius s.

(** The loop of [IntersectRay] from an arbitrary pair ([hit], [foundHit]). *)
Definition scan (ray : Ray) (l : list Sphere) (acc : HitInfo * bool)
  : HitInfo * bool :=
  fold_left (fun acc s => sphere_step ray s acc) l acc.

(** All three channels are at least [0]. *)
Definition nonneg (v : vec3) : Prop := 0 <= x v /\ 0 <= y v /\ 0 <= z v.

(** * The shader in 32-bit floating-point arithmetic

    A GLSL [float] is a 32-bit floating-point number.  [IntersectRay] is
    embedded a second time, operation for operation, over IEEE 754 binary32
    numbers: the Standard Library's executable specification [SpecFloat] at
    precision 24 and exponent bound 128.  Every [+], [-], [*], [/] and
    [sqrt] rounds to the nearest float (ties to even), an overflow gives an
    infinity, [inf - inf] and [0/0] give NaN, and a comparison with NaN is
    false.  A sum of three products, as in [dot], is taken from left to
    right. *)

Module F32.

Definition float : Type := spec_float.
Definition prec : Z := 24.
Definition emax : Z := 128.

Definition fadd : float -> float -> float := SFadd prec emax.
Definition fsub : float -> float -> float := SFsub prec emax.
Definition fmul : float -> float -> float := SFmul prec emax.
Definition fdiv : float -> float -> float := SFdiv prec emax.
Definition fsqrt : float -> float := SFsqrt prec emax.
Definition fneg : float -> float := SFopp.

(** [x < y], [x <= y], [x > y] and [x >= y]. *)
Definition flt : float -> float -> bool := SFltb.
Definition fle : float -> float -> bool := SFleb.
Definition fgt (u v : float) : bool := flt v u.
Definition fge (u v : float) : bool := fle v u.

(** The float nearest to the integer [k], and to the decimal [k / 10^d]
    (the nearest one when [k] and [10^d] are themselves floats, as they are
    below). *)
Definition of_Z (k : Z) : float := binary_normalize prec emax k 0 false.
Definition decimal (k : Z) (d : Z) : float := fdiv (of_Z k) (of_Z (10 ^ d)).

Definition zero : float := of_Z 0.
Definition one : float := of_Z 1.
Definition two : float := of_Z 2.
Definition four : float := of_Z 4.

(** Neither an infinity nor NaN. *)
Definition finite (u : float) : bool :=
  match u with
  | S754_zero _ | S754_finite _ _ _ => true
  | _ => false
  end.

(** The real number that a finite float stands for ([0] for the others). *)
Definition val (u : float) : R :=
  match u with
  | S754_finite sg m e => IZR (cond_Zopp sg (Zpos m)) * powerRZ 2 e
  | _ => 0
  end.

Record vec3 : Type := Vec3 { x : float; y : float; z : float }.

Definition add (u v : vec3) : vec3 :=
  Vec3 (fadd (x u) (x v)) (fadd (y u) (y v)) (fadd (z u) (z v)).
Definition sub (u v : vec3) : vec3 :=
  Vec3 (fsub (x u) (x v)) (fsub (y u) (y v)) (fsub (z u) (z v)).
Definition lscale (k : float) (u : vec3) : vec3 :=
  Vec3 (fmul k (x u)) (fmul k (y u)) (fmul k (z u)).
Definition dot (u v : vec3) : float :=
  fadd (fadd (fmul (x u) (x v)) (fmul (y u) (y v))) (fmul (z u) (z v)).
Definition length (u : vec3) : float := fsqrt (dot u u).
Definition normalize (u : vec3) : vec3 :=
  Vec3 (fdiv (x u) (length u)) (fdiv (y u) (length u)) (fdiv (z u) (length u)).

Record Ray : Type := mkRay {
  pos : vec3;
  dir : vec3
}.

Record Material : Type := mkMaterial {
  k_d : vec3;
  k_s : vec3;
  n : float
}.

Record Sphere : Type := mkSphere {
  center : vec3;
  radius : float;
  mtl : Material
}.

Record HitInfo : Type := mkHitInfo {
  t : float;
  hit_position : vec3;
  hit_normal : vec3;
  hit_mtl : Material
}.

Definition set_t (hit : HitInfo) (v : float) : HitInfo :=
  mkHitInfo v (hit_position hit) (hit_normal hit) (hit_mtl hit).

(** The literal [1e30]. *)
Definition sentinel : float := of_Z (10 ^ 30).

Section Quadratic.

Variable ray : Ray.
Variable s : Sphere.

Definition oc : vec3 := sub (pos ray) (center s).
Definition quad_a : float := dot (dir ray) (dir ray).
Definition quad_b : float := fmul two (dot oc (dir ray)).
Definition quad_c : float := fsub (dot oc oc) (fmul (radius s) (radius s)).
Definition discriminant : float :=
  fsub (fmul quad_b quad_b) (fmul (fmul four quad_a) quad_c).
Definition sqrt_discriminant : float := fsqrt discriminant.
Definition t1 : float :=
  fdiv (fsub (fneg quad_b) sqrt_discriminant) (fmul two quad_a).
Definition t2 : float :=
  fdiv (fadd (fneg quad_b) sqrt_discriminant) (fmul two quad_a).

Definition candidate : option float :=
  if fge discriminant zero
  then Some (if fgt t1 zero then t1 else t2)
  else None.

Definition hit_at (tc : float) : HitInfo :=
  let p := add (pos ray) (lscale tc (dir ray)) in
  mkHitInfo tc p (normalize (sub p (center s))) (mtl s).

Definition sphere_step (acc : HitInfo * bool) : HitInfo * bool :=
  match candidate with
  | Some tc =>
      if fgt tc zero && flt tc (t (fst acc))
      then (hit_at tc, true)
      else acc
  | None => acc
  end.

End Quadratic.

Definition IntersectRay (spheres : list Sphere) (hit : HitInfo) (ray : Ray)
  : HitInfo * bool :=
  fold_left (fun acc s => sphere_step ray s acc) spheres
            (set_t hit sentinel, false).

(** The loop of [IntersectRay] from an arbitrary pair ([hit], [foundHit]). *)
Definition scan (ray : Ray) (l : list Sphere) (acc : HitInfo * bool)
  : HitInfo * bool :=
  fold_left (fun acc s => sphere_step ray s acc) l acc.

End F32.

(** ** Floats as the real numbers they stand for

    The image of a float32 scene in the exact model: every finite float
    is replaced by its value. *)

Definition vec3_val (v : F32.vec3) : vec3 :=
  Vec3 (F32.val (F32.x v)) (F32.val (F32.y v)) (F32.val (F32.z v)).

Definition Material_val (m : F32.Material) : Material :=
  mkMaterial (vec3_val (F32.k_d m)) (vec3_val (F32.k_s m)) (F32.val (F32.n m)).

Definition Sphere_val (s : F32.Sphere) : Sphere :=
  mkSphere (vec3_val (F32.center s)) (F32.val (F32.radius s))
           (Material_val (F32.mtl s)).

Definition Ray_val (r : F32.Ray) : Ray :=
  mkRay (vec3_val (F32.pos r)) (vec3_val (F32.dir r)).

(** [r] is a finite float in canonical form, of value [v]. *)
Definition represents (r : F32.float) (v : R) : Prop :=
  F32.finite r = true /\ valid_binary F32.prec F32.emax r = true /\
  F32.val r = v.

(** An operation that does not round: its result is a finite float whose
    value is the exact result on the values of the operands. *)
Definition exact_add (u v : F32.float) : Prop :=
  represents (F32.fadd u v) (F32.val u + F32.val v).
Definition exact_sub (u v : F32.float) : Prop :=
  represents (F32.fsub u v) (F32.val u - F32.val v).
Definition exact_mul (u v : F32.float) : Prop :=
  represents (F32.fmul u v) (F32.val u * F32.val v).
Definition exact_div (u v : F32.float) : Prop :=
  represents (F32.fdiv u v) (F32.val u / F32.val v).
Definition exact_sqrt (u : F32.float) : Prop :=
  represents (F32.fsqrt u) (sqrt (F32.val u)).

Definition exact_sub3 (u v : F32.vec3) : Prop :=
  exact_sub (F32.x u) (F32.x v) /\ exact_sub (F32.y u) (F32.y v) /\
  exact_sub (F32.z u) (F32.z v).

Definition exact_dot (u v : F32.vec3) : Prop :=
  exact_mul (F32.x u) (F32.x v) /\ exact_mul (F32.y u) (F32.y v) /\
  exact_mul (F32.z u) (F32.z v) /\
  exact_add (F32.fmul (F32.x u) (F32.x v)) (F32.fmul (F32.y u) (F32.y v)) /\
  exact_add (F32.fadd (F32.fmul (F32.x u) (F32.x v))
                      (F32.fmul (F32.y u) (F32.y v)))
            (F32.fmul (F32.z u) (F32.z v)).

(** No operation of lines 87 to 92 of [IntersectRay] rounds for the ray
    and the sphere, and none of lines 96 to 98 when they are reached. *)
Definition no_rounding (ray : F32.Ray) (s : F32.Sphere) : Prop :=
  exact_sub3 (F32.pos ray) (F32.center s) /\
  exact_dot (F32.dir ray) (F32.dir ray) /\
  exact_dot (F32.oc ray s) (F32.dir ray) /\
  exact_mul F32.two (F32.dot (F32.oc ray s) (F32.dir ray)) /\
  exact_dot (F32.oc ray s) (F32.oc ray s) /\
  exact_mul (F32.radius s) (F32.radius s) /\
  exact_sub (F32.dot (F32.oc ray s) (F32.oc ray s))
            (F32.fmul (F32.radius s) (F32.radius s)) /\
  exact_mul (F32.quad_b ray s) (F32.quad_b ray s) /\
  exact_mul F32.four (F32.quad_a ray) /\
  exact_mul (F32.fmul F32.four (F32.quad_a ray)) (F32.quad_c ray s) /\
  exact_sub (F32.fmul (F32.quad_b ray s) (F32.quad_b ray s))
            (F32.fmul (F32.fmul F32.four (F32.quad_a ray)) (F32.quad_c ray s)) /\
  (F32.fge (F32.discriminant ray s) F32.zero = true ->
   exact_sqrt (F32.discriminant ray s) /\
   exact_mul F32.two (F32.quad_a ray) /\
   exact_sub (F32.fneg (F32.quad_b ray s)) (F32.sqrt_discriminant ray s) /\
   exact_div (F32.fsub (F32.fneg (F32.quad_b ray s))
                       (F32.sqrt_discriminant ray s))
             (F32.fmul F32.two (F32.quad_a ray)) /\
   exact_add (F32.fneg (F32.quad_b ray s)) (F32.sqrt_discriminant ray s) /\
   exact_div (F32.fadd (F32.fneg (F32.quad_b ray s))
                       (F32.sqrt_discriminant ray s))
             (F32.fmul F32.two (F32.quad_a ray))).

(** ** The order of the floats

    [SFcompare] orders the floats other than NaN by sign, then exponent,
    then mantissa: the key of a float is its place in that order. *)

Definition key (u : F32.float) : option (Z * Z * Z) :=
  match u with
  | S754_nan => None
  | S754_infinity sg => Some (if sg then (-2, 0, 0) else (2, 0, 0))%Z
  | S754_zero _ => Some (0, 0, 0)%Z
  | S754_finite sg m e =>
      Some (if sg then (-1, - e, - Zpos m) else (1, e, Zpos m))%Z
  end.

Definition lex_lt (p q : Z * Z * Z) : Prop :=
  let '(a, b, c) := p in
  let '(a', b', c') := q in
  (a < a' \/ (a = a' /\ (b < b' \/ (b = b' /\ c < c'))))%Z.

(** A float other than NaN. *)
Definition ordered (u : F32.float) : Prop := u <> S754_nan.

(** ** Concrete scenes *)

(** ** A first scene: the unit sphere at the origin, seen from [(0,0,5)] *)
Module Scene1.

Definition red : Material := mkMaterial (Vec3 1 0 0) (Vec3 0 0 0) 1.
Definition ball : Sphere := mkSphere (Vec3 0 0 0) 1 red.
Definition spheres : list Sphere := [ball].
Definition lights : list Light := [mkLight (Vec3 0 5 0) (Vec3 1 1 1)].
(** A ray down the z axis, and one that looks away from the sphere. *)
Definition ray : Ray := mkRay (Vec3 0 0 5) (Vec3 0 0 (-1)).
Definition away : Ray := mkRay (Vec3 0 0 5) (Vec3 0 0 1).
Definition stale : HitInfo := mkHitInfo 5 (Vec3 1 2 3) (Vec3 0 1 0) red.

End Scene1.

(** A second scene: two spheres in the same place, so that every ray that
    hits one hits the other at the same distance. *)
Module Twins.

Definition green : Material := mkMaterial (Vec3 0 1 0) (Vec3 0 0 0) 1.
Definition twin : Sphere := mkSphere (Vec3 0 0 0) 1 green.
Definition spheres : list Sphere := [Scene1.ball; twin].

End Twins.

(** A third scene: a point on top of the unit sphere, a second sphere
    above it, one light beyond the second sphere and one light between the
    two. *)
Module Occluded.

Definition occluder : Sphere := mkSphere (Vec3 0 0 5) 1 Scene1.red.
Definition spheres : list Sphere := [Scene1.ball; occluder].
Definition p : vec3 := Vec3 0 0 1.
Definition normal : vec3 := Vec3 0 0 1.
Definition view : vec3 := Vec3 0 0 1.
Definition beyond : Light := mkLight (Vec3 0 0 10) (Vec3 1 1 1).
Definition between : Light := mkLight (Vec3 0 0 3) (Vec3 1 1 1).
Definition shadow : Ray := mkRay (Vec3 0 0 1.001) (Vec3 0 0 1).

End Occluded.

(** A fourth scene: on top of a unit sphere, a light and a viewer both in
    the tangent plane, so that both dot products are [0]. *)
Module Tangent.

(** A mirror-like material with specular exponent [e], and the unit
    sphere made of it. *)
Definition gloss (e : R) : Material := mkMaterial (Vec3 0 0 0) (Vec3 1 1 1) e.
Definition ball (e : R) : Sphere := mkSphere (Vec3 0 0 0) 1 (gloss e).
Definition spheres (e : R) : list Sphere := [ball e].
Definition p : vec3 := Vec3 0 0 1.
Definition normal : vec3 := Vec3 0 0 1.
Definition view : vec3 := Vec3 1 0 0.
Definition lamp : Light := mkLight (Vec3 5 0 1) (Vec3 1 1 1).
(** A light just below the tangent plane at [p], on the other side. *)
Definition low : Light := mkLight (Vec3 (-1104) 0 (-46)) (Vec3 1 1 1).
(** A material that reflects diffusely as well, and the unit sphere made
    of it. *)
Definition satin : Material := mkMaterial (Vec3 1 1 1) (Vec3 1 1 1) 1.
Definition satin_ball : Sphere := mkSphere (Vec3 0 0 0) 1 satin.
Definition shadow : Ray := mkRay (Vec3 0 0 1.001) (Vec3 1 0 0).
(** The ray from the lamp that touches the sphere at [p]. *)
Definition grazing : Ray := mkRay (Vec3 5 0 1) (Vec3 (-1) 0 0).
Definition touch (e : R) : HitInfo :=
  mkHitInfo 5 (Vec3 0 0 1) (Vec3 0 0 1) (gloss e).

End Tangent.

(** A fifth scene: two spheres facing each other on the z axis, the first
    reflecting only red, the second only green, and a viewer between them
    who looks at the first. *)
Module Mirrors.

Definition reddish : Material := mkMaterial (Vec3 1 0 0) (Vec3 1 0 0) 10.
Definition greenish : Material := mkMaterial (Vec3 0 1 0) (Vec3 0 1 0) 10.
Definition near : Sphere := mkSphere (Vec3 0 0 0) 1 reddish.
Definition opposite : Sphere := mkSphere (Vec3 0 0 10) 1 greenish.
Definition spheres : list Sphere := [near; opposite].
Definition sky (d : vec3) : vec3 := Vec3 0 0 1.
Definition first_hit : HitInfo :=
  mkHitInfo 4 (Vec3 0 0 1) (Vec3 0 0 1) reddish.
Definition bounce_ray : Ray := mkRay (Vec3 0 0 1.001) (Vec3 0 0 1).
Definition second_hit : HitInfo :=
  mkHitInfo 7.999 (Vec3 0 0 9) (Vec3 0 0 (-1)) greenish.

End Mirrors.


(** ** Scenes in float32

    The unit sphere at the origin and rays along the third axis, the
    numbers being floats. *)
Module Scene32.

Definition origin : F32.vec3 := F32.Vec3 F32.zero F32.zero F32.zero.
Definition down : F32.vec3 := F32.Vec3 F32.zero F32.zero (F32.of_Z (-1)).
Definition red : F32.Material :=
  F32.mkMaterial (F32.Vec3 F32.one F32.zero F32.zero) origin F32.one.
Definition green : F32.Material :=
  F32.mkMaterial (F32.Vec3 F32.zero F32.one F32.zero) origin F32.one.
Definition ball : F32.Sphere := F32.mkSphere origin F32.one red.
Definition twin : F32.Sphere := F32.mkSphere origin F32.one green.
(** The ray from [(0, 0, k)] towards the origin. *)
Definition from (k : Z) : F32.Ray :=
  F32.mkRay (F32.Vec3 F32.zero F32.zero (F32.of_Z k)) down.
Definition stale : F32.HitInfo := F32.mkHitInfo F32.zero origin origin red.

(** A sphere of radius [2.5] around [(0, 0, -2)]: it reaches up to
    [(0, 0, 0.5)], below the top [(0, 0, 1)] of the unit sphere. *)
Definition behind : F32.Sphere :=
  F32.mkSphere (F32.Vec3 F32.zero F32.zero (F32.of_Z (-2))) (F32.decimal 25 1)
               green.
(** A sphere of radius [2] around the same point: it reaches up to the
    origin. *)
Definition deep : F32.Sphere :=
  F32.mkSphere (F32.Vec3 F32.zero F32.zero (F32.of_Z (-2))) F32.two green.

(** A sphere of radius [5] and a ray that starts inside it, at
    [(1.26, 4.6, 1.5008)]; and the ray that starts at the centre. *)
Definition big : F32.Sphere := F32.mkSphere origin (F32.of_Z 5) red.
Definition inner : F32.Ray :=
  F32.mkRay (F32.Vec3 (F32.decimal 126 2) (F32.decimal 46 1)
                      (F32.decimal 15008 4)) down.
Definition central : F32.Ray := F32.mkRay origin down.

(** A sphere of radius [5] around [(6, 8, 0)], and the ray from the origin
    towards its centre, with the direction [(3, 4, 0)] of length [5]. *)
Definition aside : F32.Sphere :=
  F32.mkSphere (F32.Vec3 (F32.of_Z 6) (F32.of_Z 8) F32.zero) (F32.of_Z 5) red.
Definition slanted : F32.Ray :=
  F32.mkRay origin (F32.Vec3 (F32.of_Z 3) (F32.of_Z 4) F32.zero).

End Scene32.

(** * The 2D transformations of [project2.js]

    [GetTransform] and [ApplyTransform] work on 3x3 matrices given as
    arrays of 9 values in column-major order; such an array is a record of
    its 9 entries here, entry [i] being the field [e_i]. *)

Module Project2.

Record mat3 : Type := Mat3 {
  e0 : R; e1 : R; e2 : R;
  e3 : R; e4 : R; e5 : R;
  e6 : R; e7 : R; e8 : R
}.

(** [GetTransform(positionX, positionY, rotation, scale)]; [rotation] is in
    degrees. *)
Definition GetTransform (positionX positionY rotation scale : R) : mat3 :=
  let radians := rotation * PI / 180 in
  let cosTheta := cos radians in
  let sinTheta := sin radians in
  Mat3 (scale * cosTheta) (scale * sinTheta) 0
       (scale * - sinTheta) (scale * cosTheta) 0
       positionX positionY 1.

(** [ApplyTransform(trans1, trans2)]. *)
Definition ApplyTransform (trans1 trans2 : mat3) : mat3 :=
  Mat3
    (e0 trans2 * e0 trans1 + e3 trans2 * e1 trans1 + e6 trans2 * e2 trans1)
    (e1 trans2 * e0 trans1 + e4 trans2 * e1 trans1 + e7 trans2 * e2 trans1)
    (e2 trans2 * e0 trans1 + e5 trans2 * e1 trans1 + e8 trans2 * e2 trans1)

    (e0 trans2 * e3 trans1 + e3 trans2 * e4 trans1 + e6 trans2 * e5 trans1)
    (e1 trans2 * e3 trans1 + e4 trans2 * e4 trans1 + e7 trans2 * e5 trans1)
    (e2 trans2 * e3 trans1 + e5 trans2 * e4 trans1 + e8 trans2 * e5 trans1)

    (e0 trans2 * e6 trans1 + e3 trans2 * e7 trans1 + e6 trans2 * e8 trans1)
    (e1 trans2 * e6 trans1 + e4 trans2 * e7 trans1 + e7 trans2 * e8 trans1)
    (e2 trans2 * e6 trans1 + e5 trans2 * e7 trans1 + e8 trans2 * e8 trans1).

(** The identity matrix. *)
Definition identity : mat3 := Mat3 1 0 0 0 1 0 0 0 1.

End Project2.

(** * The image compositing of [composite]

    [composite(bgImg, fgImg, fgOpac, fgPos)] blends a foreground image into
    a background image in place.  An image is an [ImageData]: a width, a
    height and [data], a [Uint8ClampedArray] of RGBA bytes; the array is a
    list of integers here, the function returns the new contents of
    [bgImg.data], and [None] stands for the exception it throws.  Numbers
    are read as exact reals, as for the shader. *)

Module Compositing.

Record Image : Type := mkImage {
  width : Z;
  height : Z;
  data : list Z
}.

(** [fgPos], with fields [x] and [y]. *)
Record Pos : Type := mkPos {
  pos_x : Z;
  pos_y : Z
}.

(** [a === b] on numbers. *)
Definition Reqb (u v : R) : bool := if Req_EM_T u v then true else false.

(** [d[i]]: [None] is [undefined], the value of a read outside the array. *)
Definition read (d : list Z) (i : Z) : option Z :=
  if (i <? 0)%Z then None else nth_error d (Z.to_nat i).

(** A read that is stored or used in arithmetic. In [composite] such reads
    are in range whenever the read of the alpha byte of the same pixel
    is. *)
Definition get (d : list Z) (i : Z) : Z :=
  match read d i with Some v => v | None => 0%Z end.

(** What a [Uint8ClampedArray] keeps of an integer. *)
Definition clamp (v : Z) : Z := Z.max 0 (Z.min 255 v).

Fixpoint replace_nth (d : list Z) (k : nat) (v : Z) : list Z :=
  match d, k with
  | [], _ => []
  | _ :: d', O => v :: d'
  | u :: d', S k' => u :: replace_nth d' k' v
  end.

(** [d[i] = v] on a [Uint8ClampedArray]: the value is clamped, and a store
    outside the array does nothing. *)
Definition write (d : list Z) (i : Z) (v : Z) : list Z :=
  if (i <? 0)%Z then d else replace_nth d (Z.to_nat i) (clamp v).

(** [Math.round]: the nearest integer, halves upwards. *)
Definition round (u : R) : Z := Int_part (u + / 2).

(** The indices [0, 1, ..., n - 1] of a counting loop. *)
Definition indices (n : Z) : list Z := map Z.of_nat (seq 0 (Z.to_nat n)).

Section Composite.

Variable bgWidth bgHeight : Z.   (* bgImg.width, bgImg.height *)
Variable fgImg : Image.
Variable fgOpac : R.
Variable fgPos : Pos.

Definition bgIndex_of (bgY bgX : Z) : Z := ((bgY * bgWidth + bgX) * 4)%Z.
Definition fgIndex_of (fgY fgX : Z) : Z := ((fgY * width fgImg + fgX) * 4)%Z.

(** One round of the loop [for (let c = 0; c < 3; c++)]. *)
Definition blend_channel
    (bgIndex fgIndex : Z) (fgAlpha bgAlpha outAlpha : R)
    (d : list Z) (c : Z) : list Z :=
  write d (bgIndex + c)
    (round ((IZR (get (data fgImg) (fgIndex + c)) * fgAlpha
             + IZR (get d (bgIndex + c)) * bgAlpha * (1 - fgAlpha))
            / outAlpha)).

(** The body of the inner loop, after the test of [bgX], on the contents
    [d] of [bgImg.data]. *)
Definition blend_pixel (bgIndex fgIndex : Z) (d : list Z) : list Z :=
  match read (data fgImg) (fgIndex + 3) with
  | None => d   (* fgAlpha is NaN: no test below succeeds *)
  | Some fgA =>
      let fgAlpha := IZR fgA / 255 * fgOpac in
      if Reqb fgAlpha 0 then d
      else if Reqb fgAlpha 1 then
        let d0 := write d bgIndex (get (data fgImg) fgIndex) in
        let d1 := write d0 (bgIndex + 1) (get (data fgImg) (fgIndex + 1)) in
        let d2 := write d1 (bgIndex + 2) (get (data fgImg) (fgIndex + 2)) in
        write d2 (bgIndex + 3) 255
      else
        match read d (bgIndex + 3) with
        | None => d   (* bgAlpha and outAlpha are NaN *)
        | Some bgA =>
            let bgAlpha := IZR bgA / 255 in
            let outAlpha := fgAlpha + bgAlpha * (1 - fgAlpha) in
            if Rgtb outAlpha 0 then
              let d' :=
                fold_left
                  (blend_channel bgIndex fgIndex fgAlpha bgAlpha outAlpha)
                  (indices 3) d in
              write d' (bgIndex + 3) (round (outAlpha * 255))
            else d
        end
  end.

(** One round of the loop over [fgX], in the row [fgY]. *)
Definition composite_pixel (fgY : Z) (d : list Z) (fgX : Z) : list Z :=
  let bgY := (fgY + pos_y fgPos)%Z in
  let bgX := (fgX + pos_x fgPos)%Z in
  if (bgX <? 0)%Z || (bgX >=? bgWidth)%Z then d
  else blend_pixel (bgIndex_of bgY bgX) (fgIndex_of fgY fgX) d.

(** One round of the loop over [fgY]. *)
Definition composite_row (d : list Z) (fgY : Z) : list Z :=
  let bgY := (fgY + pos_y fgPos)%Z in
  if (bgY <? 0)%Z || (bgY >=? bgHeight)%Z then d
  else fold_left (composite_pixel fgY) (indices (width fgImg)) d.

End Composite.

(** [composite]: [None] when ["Invalid background image"] is thrown, that
    is, when [bgImg.width] or [bgImg.height] is [0]. *)
Definition composite
    (bgImg fgImg : Image) (fgOpac : R) (fgPos : Pos) : option (list Z) :=
  if (width bgImg =? 0)%Z || (height bgImg =? 0)%Z then None
  else if Reqb fgOpac 0 then Some (data bgImg)
  else
    Some (fold_left
            (composite_row (width bgImg) (height bgImg) fgImg fgOpac fgPos)
            (indices (height fgImg)) (data bgImg)).

(** The byte [c] of the pixel in column [X] of row [Y] of an image of
    width [w]. *)
Definition byte_at (w : Z) (d : list Z) (Y X c : Z) : option Z :=
  read d ((Y * w + X) * 4 + c).

(** The shifted foreground covers the background pixel in column [X] of
    row [Y]. *)
Definition covered (fgImg : Image) (fgPos : Pos) (Y X : Z) : Prop :=
  (0 <= X - pos_x fgPos < width fgImg)%Z /\
  (0 <= Y - pos_y fgPos < height fgImg)%Z.

(** A background of two pixels in a row and two foregrounds of one
    pixel, one opaque and one transparent, placed over the second
    background pixel. *)
Definition bg2 : Image := mkImage 2 1 [10; 20; 30; 255; 40; 50; 60; 255]%Z.
Definition fg_opaque : Image := mkImage 1 1 [1; 2; 3; 255]%Z.
Definition fg_clear : Image := mkImage 1 1 [1; 2; 3; 0]%Z.
Definition second : Pos := mkPos 1 0.

End Compositing.

(** * Properties *)

(** ** The boolean comparisons *)

Lemma Rltb_true_iff (u v : R) : Rltb u v = true <-> u < v.
Proof. unfold Rltb. destruct (Rlt_dec u v); split; intros; try easy. Qed.

Lemma Rltb_false_iff (u v : R) : Rltb u v = false <-> v <= u.
Proof.
  unfold Rltb. destruct (Rlt_dec u v); split; intros; try easy; lra.
Qed.

Lemma Rleb_true_iff (u v : R) : Rleb u v = true <-> u <= v.
Proof. unfold Rleb. destruct (Rle_dec u v); split; intros; try easy. Qed.

Lemma Rleb_false_iff (u v : R) : Rleb u v = false <-> v < u.
Proof.
  unfold Rleb. destruct (Rle_dec u v); split; intros; try easy; lra.
Qed.

Lemma Rgtb_true_iff (u v : R) : Rgtb u v = true <-> u > v.
Proof. unfold Rgtb. rewrite Rltb_true_iff. lra. Qed.

Lemma Rgtb_false_iff (u v : R) : Rgtb u v = false <-> u <= v.
Proof. unfold Rgtb. apply Rltb_false_iff. Qed.

Lemma Rgeb_true_iff (u v : R) : Rgeb u v = true <-> u >= v.
Proof. unfold Rgeb. rewrite Rleb_true_iff. lra. Qed.

Lemma Rgeb_false_iff (u v : R) : Rgeb u v = false <-> u < v.
Proof. unfold Rgeb. apply Rleb_false_iff. Qed.

(** Rewriting a comparison whose outcome [lra] can decide. *)
Ltac decide_cmp :=
  repeat first
    [ rewrite (proj2 (Rltb_true_iff _ _)) by lra
    | rewrite (proj2 (Rltb_false_iff _ _)) by lra
    | rewrite (proj2 (Rleb_true_iff _ _)) by lra
    | rewrite (proj2 (Rleb_false_iff _ _)) by lra
    | rewrite (proj2 (Rgtb_true_iff _ _)) by lra
    | rewrite (proj2 (Rgtb_false_iff _ _)) by lra
    | rewrite (proj2 (Rgeb_true_iff _ _)) by lra
    | rewrite (proj2 (Rgeb_false_iff _ _)) by lra ].

(** ** The built-in functions *)

Lemma sqrt_of_square (u v : R) : 0 <= v -> u = v * v -> sqrt u = v.
Proof. intros Hv ->. now apply sqrt_square. Qed.



Lemma length_value (u : vec3) (d : R) : 0 <= d -> dot u u = d * d -> length u = d.
Proof. intros Hd E. unfold length. now apply sqrt_of_square. Qed.



(** Evaluating [normalize] and [length] on given numbers. *)
Lemma normalize_is (u v : vec3) (d : R) :
  0 < d -> dot u u = d * d ->
  x u = d * x v -> y u = d * y v -> z u = d * z v ->
  normalize u = v.
Proof.
  intros Hd E Hx Hy Hz. unfold normalize.
  rewrite (length_value u d) by (lra || exact E).
  destruct v as [vx vy vz]. cbn in *. rewrite Hx, Hy, Hz.
  f_equal; field; lra.
Qed.

Lemma max_clamp (u : R) : u <= 0 -> max u 0 = 0.
Proof.
  intros H. unfold max. destruct (Rltb u 0) eqn:E; [reflexivity|].
  apply Rltb_false_iff in E. lra.
Qed.

Lemma max_nonneg (u : R) : 0 <= max u 0.
Proof.
  unfold max. destruct (Rltb u 0) eqn:E; [lra|].
  now apply Rltb_false_iff in E.
Qed.

(** The power function [pow_ref] on the part of its domain where GLSL
    defines [pow]. *)
Lemma pow_ref_zero (e : R) : 0 < e -> pow_ref 0 e = 0.
Proof.
  intros H. unfold pow_ref. now decide_cmp.
Qed.

Lemma pow_ref_positive (b e : R) : 0 < b -> pow_ref b e = Rpower b e.
Proof. intros H. unfold pow_ref, Rpower. now decide_cmp. Qed.

Lemma pow_ref_nonneg (b e : R) : 0 <= b -> 0 <= pow_ref b e.
Proof.
  intros _. unfold pow_ref.
  destruct (Rltb 0 b); [left; apply exp_pos|].
  destruct (Rltb 0 e); lra.
Qed.

Lemma pow_ref_zero_zero : pow_ref 0 0 = 1.
Proof. unfold pow_ref. now decide_cmp. Qed.

(** ** The quadratic of a sphere *)

Section QuadraticFacts.

Variable ray : Ray.
Variable s : Sphere.

Lemma on_sphere_quadratic (tt : R) :
  on_sphere ray s tt <->
  quad_a ray * tt * tt + quad_b ray s * tt + quad_c ray s = 0.
Proof.
  unfold on_sphere, quad_a, quad_b, quad_c, oc, dot, add, sub, lscale.
  cbn. split; intros H; nra.
Qed.

Lemma quad_a_nonneg : 0 <= quad_a ray.
Proof. unfold quad_a, dot. nra. Qed.

Lemma candidate_Some (tc : R) :
  candidate ray s = Some tc ->
  0 <= discriminant ray s /\
  tc = (if Rgtb (t1 ray s) 0 then t1 ray s else t2 ray s).
Proof.
  unfold candidate. destruct (Rgeb _ 0) eqn:E; [|discriminate].
  apply Rgeb_true_iff in E. intros [= <-]. split; [lra | reflexivity].
Qed.

Lemma candidate_None :
  candidate ray s = None -> discriminant ray s < 0.
Proof.
  unfold candidate. destruct (Rgeb _ 0) eqn:E; [discriminate|].
  now apply Rgeb_false_iff in E.
Qed.

(** With a zero direction both roots are [0] (division by zero gives [0]
    in [R]), so a positive candidate needs a non-zero direction. *)
Lemma candidate_pos_quad_a (tc : R) :
  candidate ray s = Some tc -> 0 < tc -> 0 < quad_a ray.
Proof.
  intros Hc Hpos. destruct (candidate_Some _ Hc) as [_ ->].
  destruct (Req_dec (quad_a ray) 0) as [E|E].
  - exfalso. unfold t1, t2 in Hpos. rewrite E, Rmult_0_r in Hpos.
    unfold Rdiv in Hpos. rewrite Rinv_0, !Rmult_0_r in Hpos.
    destruct (Rgtb 0 0); lra.
  - pose proof quad_a_nonneg. lra.
Qed.

Section Roots.

Hypothesis a_pos : 0 < quad_a ray.
Hypothesis disc_nonneg : 0 <= discriminant ray s.

Lemma sqrt_disc_sqr :
  sqrt_discriminant ray s * sqrt_discriminant ray s = discriminant ray s.
Proof. unfold sqrt_discriminant. now apply sqrt_sqrt. Qed.

Lemma sqrt_disc_nonneg : 0 <= sqrt_discriminant ray s.
Proof. unfold sqrt_discriminant. apply sqrt_pos. Qed.

Lemma t1_le_t2 : t1 ray s <= t2 ray s.
Proof.
  pose proof sqrt_disc_nonneg as Hs. unfold t1, t2, Rdiv.
  apply Rmult_le_compat_r; [|lra].
  left. apply Rinv_0_lt_compat. lra.
Qed.

Lemma t1_root : on_sphere ray s (t1 ray s).
Proof.
  apply on_sphere_quadratic. pose proof sqrt_disc_sqr as Hs.
  unfold discriminant in Hs. unfold t1.
  set (sq := sqrt_discriminant ray s) in *.
  field_simplify_eq; [nra | lra].
Qed.

Lemma t2_root : on_sphere ray s (t2 ray s).
Proof.
  apply on_sphere_quadratic. pose proof sqrt_disc_sqr as Hs.
  unfold discriminant in Hs. unfold t2.
  set (sq := sqrt_discriminant ray s) in *.
  field_simplify_eq; [nra | lra].
Qed.

End Roots.

End QuadraticFacts.

Section RootsComplete.

Variable ray : Ray.
Variable s : Sphere.
Hypothesis a_pos : 0 < quad_a ray.

(** A point of the ray on the sphere is at one of the two roots. *)
Lemma on_sphere_roots (tt : R) :
  on_sphere ray s tt ->
  0 <= discriminant ray s /\ (tt = t1 ray s \/ tt = t2 ray s).
Proof.
  intros H. apply on_sphere_quadratic in H.
  assert (Hd : discriminant ray s
               = (2 * quad_a ray * tt + quad_b ray s)
                 * (2 * quad_a ray * tt + quad_b ray s)).
  { unfold discriminant. nra. }
  assert (Hd0 : 0 <= discriminant ray s) by (rewrite Hd; apply Rle_0_sqr).
  split; [exact Hd0|].
  pose proof (sqrt_disc_sqr ray s Hd0) as Hs.
  set (sq := sqrt_discriminant ray s) in *.
  set (u := 2 * quad_a ray * tt + quad_b ray s) in *.
  assert (Hz : (u - sq) * (u + sq) = 0).
  { replace ((u - sq) * (u + sq)) with (u * u - sq * sq) by ring.
    rewrite Hs, Hd. ring. }
  apply Rmult_integral in Hz. unfold t1, t2. fold sq.
  destruct Hz as [Hz|Hz]; [right | left];
    (apply Rmult_eq_reg_r with (2 * quad_a ray); [|lra]);
    unfold Rdiv; rewrite Rmult_assoc, Rinv_l by lra; unfold u in Hz; lra.
Qed.

(** The candidate of the loop body is the least positive root. *)
Lemma candidate_least_positive (tt : R) :
  on_sphere ray s tt -> 0 < tt ->
  exists tc, candidate ray s = Some tc /\ 0 < tc /\ tc <= tt.
Proof.
  intros H Hpos. destruct (on_sphere_roots _ H) as [Hd Ht].
  pose proof (t1_le_t2 ray s a_pos) as Hle.
  unfold candidate. rewrite (proj2 (Rgeb_true_iff _ _)) by lra.
  destruct (Rgtb (t1 ray s) 0) eqn:E.
  - apply Rgtb_true_iff in E. exists (t1 ray s).
    repeat split; [lra|]. destruct Ht; lra.
  - apply Rgtb_false_iff in E. exists (t2 ray s).
    repeat split; destruct Ht; lra.
Qed.

End RootsComplete.

(** A candidate, when there is one, is a root of the quadratic. *)
Lemma candidate_on_sphere (ray : Ray) (s : Sphere) (tc : R) :
  candidate ray s = Some tc -> 0 < tc -> on_sphere ray s tc.
Proof.
  intros Hc Hpos. pose proof (candidate_pos_quad_a _ _ _ Hc Hpos) as Ha.
  destruct (candidate_Some _ _ _ Hc) as [Hd ->].
  destruct (Rgtb _ 0); [now apply t1_root | now apply t2_root].
Qed.

(** ** The scan over the spheres *)

Section Scan.

Variable ray : Ray.

Lemma sphere_step_cases (s : Sphere) (acc : HitInfo * bool) :
  (sphere_step ray s acc = acc /\
   forall tc, candidate ray s = Some tc -> 0 < tc -> t (fst acc) <= tc)
  \/
  (exists tc, candidate ray s = Some tc /\ 0 < tc /\ tc < t (fst acc) /\
              sphere_step ray s acc = (hit_at ray s tc, true)).
Proof.
  unfold sphere_step. destruct (candidate ray s) as [tc|].
  - destruct (Rgtb tc 0) eqn:E1; cbn [andb].
    + destruct (Rltb tc (t (fst acc))) eqn:E2.
      * right. exists tc. apply Rgtb_true_iff in E1.
        apply Rltb_true_iff in E2. repeat split; lra.
      * left. split; [reflexivity|]. intros ? [= <-] _.
        now apply Rltb_false_iff in E2.
    + left. split; [reflexivity|]. intros ? [= <-] H.
      apply Rgtb_false_iff in E1. lra.
  - left. split; [reflexivity | discriminate].
Qed.

Lemma sphere_step_le (s : Sphere) (acc : HitInfo * bool) :
  t (fst (sphere_step ray s acc)) <= t (fst acc).
Proof.
  destruct (sphere_step_cases s acc) as [[-> _] | (tc & _ & _ & Hlt & ->)];
    cbn [fst t hit_at]; lra.
Qed.

Lemma sphere_step_below (s : Sphere) (acc : HitInfo * bool) (tc : R) :
  candidate ray s = Some tc -> 0 < tc ->
  t (fst (sphere_step ray s acc)) <= tc.
Proof.
  intros Hc Hp.
  destruct (sphere_step_cases s acc) as [[-> Hge] | (tc' & Hc' & _ & _ & ->)].
  - now apply Hge.
  - rewrite Hc in Hc'. injection Hc' as <-. cbn [fst t hit_at]. lra.
Qed.

(** The outcome of the scan: either nothing was accepted, and every
    positive candidate is at least the distance the scan started from; or
    the sphere at some index [i] was accepted last, its candidate is
    below the starting distance, at most every positive candidate, and
    strictly below those of the spheres before it. *)
Lemma scan_spec (l : list Sphere) (acc : HitInfo * bool) :
  (scan ray l acc = acc /\
   forall s tc, In s l -> candidate ray s = Some tc -> 0 < tc ->
                t (fst acc) <= tc)
  \/
  (exists i s tc,
      nth_error l i = Some s /\ candidate ray s = Some tc /\
      0 < tc /\ tc < t (fst acc) /\
      scan ray l acc = (hit_at ray s tc, true) /\
      forall j s' tc',
        nth_error l j = Some s' -> candidate ray s' = Some tc' -> 0 < tc' ->
        tc <= tc' /\ ((j < i)%nat -> tc < tc')).
Proof.
  revert acc. induction l as [|s0 l IH]; intros acc.
  - left. split; [reflexivity | intros ? ? []].
  - cbn [scan fold_left]. fold (scan ray l (sphere_step ray s0 acc)).
    pose proof (sphere_step_le s0 acc) as Hle.
    pose proof (sphere_step_below s0 acc) as Hbelow.
    destruct (IH (sphere_step ray s0 acc)) as
      [[Heq Hall] | (i & s & tc & Hnth & Hc & Hpos & Hlt & Hres & Hmin)].
    + destruct (sphere_step_cases s0 acc) as
        [[Hs Hge] | (tc & Hc & Hpos & Hlt & Hs)].
      * left. rewrite Heq, Hs. split; [reflexivity|].
        intros s tc [<-|Hin] Hc Hpos; [now apply Hge|].
        rewrite Hs in Hall. now apply (Hall s).
      * right. exists 0%nat, s0, tc. rewrite Heq, Hs in *.
        split; [reflexivity|]. split; [exact Hc|]. split; [exact Hpos|].
        split; [exact Hlt|]. split; [reflexivity|].
        intros j s' tc' Hj Hc' Hp'. split; [|lia].
        destruct j as [|j]; cbn in Hj.
        -- injection Hj as <-. rewrite Hc in Hc'. injection Hc' as <-. lra.
        -- apply nth_error_In in Hj. apply (Hall s' tc' Hj Hc' Hp').
    + right. exists (S i), s, tc.
      split; [exact Hnth|]. split; [exact Hc|]. split; [exact Hpos|].
      split; [lra|]. split; [exact Hres|].
      intros j s' tc' Hj Hc' Hp'. destruct j as [|j]; cbn in Hj.
      * injection Hj as <-. specialize (Hbelow _ Hc' Hp').
        split; [lra | intros _; lra].
      * destruct (Hmin j s' tc' Hj Hc' Hp') as [H1 H2].
        split; [exact H1 | intros Hlt'; apply H2; lia].
Qed.

End Scan.

(** ** [IntersectRay] *)

Section IntersectRayFacts.

Variable spheres : list Sphere.

Lemma IntersectRay_scan (hit : HitInfo) (ray : Ray) :
  IntersectRay spheres hit ray = scan ray spheres (set_t hit sentinel, false).
Proof. reflexivity. Qed.

(** A call that returns [false] has only reset [hit.t]. *)
Lemma IntersectRay_false (hit : HitInfo) (ray : Ray) :
  snd (IntersectRay spheres hit ray) = false ->
  IntersectRay spheres hit ray = (set_t hit sentinel, false).
Proof.
  rewrite IntersectRay_scan.
  destruct (scan_spec ray spheres (set_t hit sentinel, false)) as
    [[-> _] | (i & s & tc & _ & _ & _ & _ & -> & _)];
    [reflexivity | discriminate].
Qed.

(** A call that returns [true] has accepted the sphere of least positive
    candidate, the first one among equals. *)
Lemma IntersectRay_true (hit0 : HitInfo) (ray : Ray) :
  snd (IntersectRay spheres hit0 ray) = true ->
  exists i s tc,
    nth_error spheres i = Some s /\ candidate ray s = Some tc /\
    0 < tc /\ tc < sentinel /\
    IntersectRay spheres hit0 ray = (hit_at ray s tc, true) /\
    forall j s' tc',
      nth_error spheres j = Some s' -> candidate ray s' = Some tc' ->
      0 < tc' -> tc <= tc' /\ ((j < i)%nat -> tc < tc').
Proof.
  rewrite IntersectRay_scan.
  destruct (scan_spec ray spheres (set_t hit0 sentinel, false)) as
    [[-> _] | (i & s & tc & Hn & Hc & Hp & Hl & Hr & Hm)];
    [discriminate | intros _].
  exists i, s, tc. cbn in Hl. repeat split; try assumption;
    now apply (Hm j s' tc').
Qed.

(** [IntersectRay] returns [true] exactly when some sphere has a positive
    candidate below the sentinel. *)
Lemma IntersectRay_true_iff (hit0 : HitInfo) (ray : Ray) :
  snd (IntersectRay spheres hit0 ray) = true <->
  exists s tc, In s spheres /\ candidate ray s = Some tc /\
               0 < tc /\ tc < sentinel.
Proof.
  split.
  - intros H. destruct (IntersectRay_true _ _ H) as
      (i & s & tc & Hn & Hc & Hp & Hl & _).
    exists s, tc. apply nth_error_In in Hn. now repeat split.
  - intros (s & tc & Hin & Hc & Hp & Hl).
    rewrite IntersectRay_scan.
    destruct (scan_spec ray spheres (set_t hit0 sentinel, false)) as
      [[_ Hall] | (i & s' & tc' & _ & _ & _ & _ & -> & _)];
      [|reflexivity].
    specialize (Hall s tc Hin Hc Hp). cbn in Hall. lra.
Qed.

(** Neither the returned boolean nor, on [true], the returned record
    depends on what [hit] held on entry. *)
Lemma IntersectRay_entry_irrelevant (h1 h2 : HitInfo) (ray : Ray) :
  snd (IntersectRay spheres h1 ray) = snd (IntersectRay spheres h2 ray) /\
  (snd (IntersectRay spheres h1 ray) = true ->
   IntersectRay spheres h1 ray = IntersectRay spheres h2 ray).
Proof.
  destruct (snd (IntersectRay spheres h1 ray)) eqn:E1.
  - assert (E2 : snd (IntersectRay spheres h2 ray) = true).
    { apply IntersectRay_true_iff. now apply (IntersectRay_true_iff h1). }
    split; [now rewrite E2|]. intros _.
    destruct (IntersectRay_true _ _ E1) as
      (i & s & tc & Hn & Hc & Hp & Hl & -> & Hm).
    destruct (IntersectRay_true _ _ E2) as
      (i' & s' & tc' & Hn' & Hc' & Hp' & Hl' & -> & Hm').
    destruct (Hm _ _ _ Hn' Hc' Hp') as [Hle Hlt].
    destruct (Hm' _ _ _ Hn Hc Hp) as [Hle' Hlt'].
    assert (i = i') by (destruct (Nat.lt_trichotomy i i') as [?|[?|?]];
                        [specialize (Hlt' H) | assumption | specialize (Hlt H)]; lra).
    subst i'. rewrite Hn in Hn'. injection Hn' as <-.
    rewrite Hc in Hc'. now injection Hc' as <-.
  - split; [|discriminate].
    destruct (snd (IntersectRay spheres h2 ray)) eqn:E2; [|reflexivity].
    apply IntersectRay_true_iff in E2.
    apply (IntersectRay_true_iff h1) in E2. congruence.
Qed.

End IntersectRayFacts.

(** ** [Shade] *)

Section ShadeFacts.

Variable spheres : list Sphere.
Variable pow : R -> R -> R.
Variable uninit : HitInfo.
Variable m : Material.
Variables p normal view : vec3.
Variable l : Light.

Lemma shadowed_true_iff :
  shadowed spheres uninit p normal l = true <->
  snd (IntersectRay spheres uninit (shadowRay p normal l)) = true /\
  t (fst (IntersectRay spheres uninit (shadowRay p normal l)))
  < distanceToLight p l.
Proof.
  unfold shadowed.
  destruct (IntersectRay spheres uninit (shadowRay p normal l)) as [h b].
  cbn [fst snd]. rewrite andb_true_iff, Rltb_true_iff. reflexivity.
Qed.

(** The light is skipped exactly when some sphere has a positive
    candidate on the shadow ray below both the sentinel and the distance
    to the light. *)
Lemma shadowed_iff_occluder :
  shadowed spheres uninit p normal l = true <->
  exists s tc, In s spheres /\
               candidate (shadowRay p normal l) s = Some tc /\
               0 < tc /\ tc < sentinel /\ tc < distanceToLight p l.
Proof.
  rewrite shadowed_true_iff. split.
  - intros [Hb Hlt].
    destruct (IntersectRay_true _ _ _ Hb) as
      (i & s & tc & Hn & Hc & Hp & Hl & Hr & _).
    rewrite Hr in Hlt. cbn in Hlt. exists s, tc.
    apply nth_error_In in Hn. now repeat split.
  - intros (s & tc & Hin & Hc & Hp & Hl & Hd).
    assert (Hb : snd (IntersectRay spheres uninit (shadowRay p normal l))
                 = true).
    { apply IntersectRay_true_iff. now exists s, tc. }
    split; [exact Hb|].
    destruct (IntersectRay_true _ _ _ Hb) as
      (i & s' & tc' & _ & _ & _ & _ & Hr & Hm).
    rewrite Hr. cbn [fst t hit_at].
    apply In_nth_error in Hin as [j Hj].
    destruct (Hm j s tc Hj Hc Hp) as [Hle _]. lra.
Qed.

Lemma light_contribution_None :
  light_contribution spheres pow uninit m p normal view l = None <->
  shadowed spheres uninit p normal l = true.
Proof.
  unfold light_contribution.
  destruct (shadowed spheres uninit p normal l); split; congruence.
Qed.

Lemma light_contribution_Some :
  shadowed spheres uninit p normal l = false ->
  light_contribution spheres pow uninit m p normal view l
  = Some (diffuse m p normal l +^ specular pow m p normal view l).
Proof. intros H. unfold light_contribution. now rewrite H. Qed.

Lemma light_step_cases (color : vec3) :
  light_step spheres pow uninit m p normal view l color = color \/
  light_step spheres pow uninit m p normal view l color
  = color +^ (diffuse m p normal l +^ specular pow m p normal view l).
Proof.
  unfold light_step, light_contribution.
  destruct (shadowed spheres uninit p normal l); [now left | now right].
Qed.

Lemma diffuse_facing_away :
  dot normal (lightDir p l) <= 0 -> diffuse m p normal l = vec3_0.
Proof.
  intros H. unfold diffuse, NdotL. rewrite max_clamp by exact H.
  unfold scale, mul, vec3_0. cbn. f_equal; lra.
Qed.

Lemma diffuse_nonneg :
  nonneg (k_d m) -> nonneg (intensity l) -> nonneg (diffuse m p normal l).
Proof.
  intros (?&?&?) (?&?&?). pose proof (max_nonneg (dot normal (lightDir p l))).
  unfold diffuse, NdotL, nonneg, scale, mul. cbn.
  repeat split; repeat apply Rmult_le_pos; assumption.
Qed.

Lemma specular_nonneg :
  (forall b e, 0 <= b -> 0 <= pow b e) ->
  nonneg (k_s m) -> nonneg (intensity l) ->
  nonneg (specular pow m p normal view l).
Proof.
  intros Hpow (?&?&?) (?&?&?).
  pose proof (Hpow _ (n m) (max_nonneg (dot normal (halfVector p view l)))).
  unfold specular, NdotH, nonneg, scale, mul. cbn.
  repeat split; repeat apply Rmult_le_pos; assumption.
Qed.

End ShadeFacts.

(** What [uninit] holds does not matter to [Shade]. *)
Lemma shadowed_uninit_irrelevant
    (spheres : list Sphere) (u1 u2 : HitInfo) (p normal : vec3) (l : Light) :
  shadowed spheres u1 p normal l = shadowed spheres u2 p normal l.
Proof.
  destruct (shadowed spheres u1 p normal l) eqn:E1;
    destruct (shadowed spheres u2 p normal l) eqn:E2; try reflexivity.
  - apply shadowed_iff_occluder in E1.
    apply (shadowed_iff_occluder spheres u2) in E1. congruence.
  - apply shadowed_iff_occluder in E2.
    apply (shadowed_iff_occluder spheres u1) in E2. congruence.
Qed.

Lemma Shade_uninit_irrelevant
    (spheres : list Sphere) (lights : list Light) (pow : R -> R -> R)
    (u1 u2 : HitInfo) (m : Material) (p normal view : vec3) :
  Shade spheres lights pow u1 m p normal view
  = Shade spheres lights pow u2 m p normal view.
Proof.
  unfold Shade. generalize vec3_0.
  induction lights as [|l ls IH]; intros c; [reflexivity|].
  cbn [fold_left]. rewrite IH. f_equal.
  unfold light_step, light_contribution.
  now rewrite (shadowed_uninit_irrelevant spheres u1 u2).
Qed.

(** ** The reflection loop *)

Section LoopFacts.

Variable spheres : list Sphere.
Variable lights : list Light.
Variable envMap : vec3 -> vec3.
Variable bounceLimit : Z.
Variable pow : R -> R -> R.
Variable uninit : HitInfo.

Let loop := reflect_loop spheres lights envMap bounceLimit pow uninit.

Lemma reflect_loop_at_limit (fuel : nat) (bounce : Z) (st : LoopState) :
  (bounceLimit <= bounce)%Z ->
  iterations (loop fuel bounce st) = 0%nat /\ final (loop fuel bounce st) = st.
Proof.
  intros H. destruct fuel; [now split|]. unfold loop. cbn [reflect_loop].
  destruct (Z.geb_spec bounce bounceLimit) as [_|Hlt]; [now split | lia].
Qed.

Lemma reflect_loop_no_specular (fuel : nat) (bounce : Z) (st : LoopState) :
  specular_sum (ls_hit st) <= 0 ->
  iterations (loop fuel bounce st) = 0%nat /\ final (loop fuel bounce st) = st.
Proof.
  intros H. destruct fuel; [now split|]. unfold loop. cbn [reflect_loop].
  destruct (bounce >=? bounceLimit)%Z; [now split|].
  rewrite (proj2 (Rleb_true_iff _ _)) by exact H. now split.
Qed.

(** An iteration that passes both tests and whose reflection ray hits. *)
Lemma reflect_loop_hit (fuel : nat) (bounce : Z) (st : LoopState) (h : HitInfo) :
  (bounce < bounceLimit)%Z -> 0 < specular_sum (ls_hit st) ->
  IntersectRay spheres uninit (reflection_ray st) = (h, true) ->
  loop (S fuel) bounce st
  = let res := loop fuel (bounce + 1)%Z
                 (hit_update spheres lights pow uninit st h) in
    mkLoopResult (final res) (S (iterations res)) (exit res).
Proof.
  intros Hb Hs Hh. unfold loop. cbn [reflect_loop].
  destruct (Z.geb_spec bounce bounceLimit) as [Hge|_]; [lia|].
  rewrite (proj2 (Rleb_false_iff _ _)) by exact Hs. now rewrite Hh.
Qed.

(** An iteration that passes both tests traces a reflection ray. *)
Lemma reflect_loop_runs (fuel : nat) (bounce : Z) (st : LoopState) :
  (bounce < bounceLimit)%Z -> 0 < specular_sum (ls_hit st) ->
  (1 <= iterations (loop (S fuel) bounce st))%nat.
Proof.
  intros Hb Hs. unfold loop. cbn [reflect_loop].
  destruct (Z.geb_spec bounce bounceLimit) as [Hge|_]; [lia|].
  rewrite (proj2 (Rleb_false_iff _ _)) by exact Hs.
  destruct (IntersectRay spheres uninit (reflection_ray st)) as [h []];
    cbn [iterations]; lia.
Qed.

Lemma reflect_loop_iterations (fuel : nat) (bounce : Z) (st : LoopState) :
  (iterations (loop fuel bounce st) <= fuel)%nat /\
  (iterations (loop fuel bounce st) <= Z.to_nat (bounceLimit - bounce))%nat.
Proof.
  unfold loop. revert bounce st.
  induction fuel as [|fuel IH]; intros bounce st; [cbn; lia|].
  cbn [reflect_loop].
  destruct (Z.geb_spec bounce bounceLimit) as [Hge|Hlt]; [cbn; lia|].
  destruct (Rleb (specular_sum (ls_hit st)) 0); [cbn; lia|].
  destruct (IntersectRay spheres uninit (reflection_ray st)) as [h []];
    cbn [iterations]; [|lia].
  destruct (IH (bounce + 1)%Z (hit_update spheres lights pow uninit st h)).
  lia.
Qed.

End LoopFacts.

(** With a bounce limit of at most [0] the colour of a hit is what
    [Shade] gives for it. *)
Lemma RayTracer_at_limit
    (spheres : list Sphere) (lights : list Light) (envMap : vec3 -> vec3)
    (bounceLimit MAX_BOUNCES : Z) (pow : R -> R -> R) (uninit : HitInfo)
    (ray : Ray) (hit : HitInfo) :
  (bounceLimit <= 0)%Z ->
  IntersectRay spheres uninit ray = (hit, true) ->
  RayTracer spheres lights envMap bounceLimit MAX_BOUNCES pow uninit ray
  = Vec4 (Shade spheres lights pow uninit (hit_mtl hit) (hit_position hit)
            (hit_normal hit) (normalize (neg (dir ray)))) 1.
Proof.
  intros Hl Hh. unfold RayTracer. rewrite Hh. unfold reflections.
  destruct (reflect_loop_at_limit spheres lights envMap bounceLimit pow
              uninit (Z.to_nat MAX_BOUNCES) 0
              (loop_init spheres lights pow uninit ray hit) Hl) as [_ Hf].
  now rewrite Hf.
Qed.

(** ** Locals that are not initialised

    [Shade] and [RayTracer] declare a [HitInfo] and pass it to
    [IntersectRay] without giving it a value.  What it holds has no
    influence on the result. *)

Lemma hit_update_uninit_irrelevant
    (spheres : list Sphere) (lights : list Light) (pow : R -> R -> R)
    (u1 u2 : HitInfo) (st : LoopState) (h : HitInfo) :
  hit_update spheres lights pow u1 st h = hit_update spheres lights pow u2 st h.
Proof.
  unfold hit_update. cbv zeta.
  now rewrite (Shade_uninit_irrelevant spheres lights pow u1 u2).
Qed.

Lemma reflect_loop_uninit_irrelevant
    (spheres : list Sphere) (lights : list Light) (envMap : vec3 -> vec3)
    (bounceLimit : Z) (pow : R -> R -> R) (u1 u2 : HitInfo)
    (fuel : nat) (bounce : Z) (st : LoopState) :
  reflect_loop spheres lights envMap bounceLimit pow u1 fuel bounce st
  = reflect_loop spheres lights envMap bounceLimit pow u2 fuel bounce st.
Proof.
  revert bounce st. induction fuel as [|fuel IH]; intros bounce st;
    [reflexivity|].
  cbn [reflect_loop].
  destruct (bounce >=? bounceLimit)%Z; [reflexivity|].
  destruct (Rleb (specular_sum (ls_hit st)) 0); [reflexivity|].
  destruct (IntersectRay_entry_irrelevant spheres u1 u2 (reflection_ray st))
    as [Hb Hh].
  destruct (IntersectRay spheres u1 (reflection_ray st)) as [h1 f1].
  destruct (IntersectRay spheres u2 (reflection_ray st)) as [h2 f2].
  cbn [snd] in Hb, Hh. subst f2. destruct f1; [|reflexivity].
  specialize (Hh eq_refl). injection Hh as ->.
  now rewrite IH, (hit_update_uninit_irrelevant spheres lights pow u1 u2).
Qed.

Lemma RayTracer_uninit_irrelevant
    (spheres : list Sphere) (lights : list Light) (envMap : vec3 -> vec3)
    (bounceLimit MAX_BOUNCES : Z) (pow : R -> R -> R) (u1 u2 : HitInfo)
    (ray : Ray) :
  RayTracer spheres lights envMap bounceLimit MAX_BOUNCES pow u1 ray
  = RayTracer spheres lights envMap bounceLimit MAX_BOUNCES pow u2 ray.
Proof.
  unfold RayTracer.
  destruct (IntersectRay_entry_irrelevant spheres u1 u2 ray) as [Hb Hh].
  destruct (IntersectRay spheres u1 ray) as [h1 f1].
  destruct (IntersectRay spheres u2 ray) as [h2 f2].
  cbn [snd] in Hb, Hh. subst f2. destruct f1; [|reflexivity].
  specialize (Hh eq_refl). injection Hh as ->.
  unfold reflections, loop_init. cbv zeta.
  now rewrite (Shade_uninit_irrelevant spheres lights pow u1 u2),
    (reflect_loop_uninit_irrelevant spheres lights envMap bounceLimit pow u1 u2).
Qed.

(** ** Evaluating the loop body on given numbers *)

(** The candidate, from a square root [sq] of the discriminant. *)
Lemma candidate_value (ray : Ray) (s : Sphere) (sq tc : R) :
  0 <= sq -> discriminant ray s = sq * sq ->
  (0 < (- quad_b ray s - sq) / (2 * quad_a ray)
   /\ tc = (- quad_b ray s - sq) / (2 * quad_a ray))
  \/ ((- quad_b ray s - sq) / (2 * quad_a ray) <= 0
      /\ tc = (- quad_b ray s + sq) / (2 * quad_a ray)) ->
  candidate ray s = Some tc.
Proof.
  intros Hsq Hd Hc. unfold candidate, t1, t2, sqrt_discriminant.
  rewrite (sqrt_of_square _ sq Hsq Hd).
  rewrite (proj2 (Rgeb_true_iff _ _)) by (rewrite Hd; nra).
  destruct Hc as [[H ->] | [H ->]]; decide_cmp; reflexivity.
Qed.

Lemma candidate_absent (ray : Ray) (s : Sphere) :
  discriminant ray s < 0 -> candidate ray s = None.
Proof.
  intros H. unfold candidate. now rewrite (proj2 (Rgeb_false_iff _ _)).
Qed.

Lemma sphere_step_accept (ray : Ray) (s : Sphere) (acc : HitInfo * bool) (tc : R) :
  candidate ray s = Some tc -> 0 < tc -> tc < t (fst acc) ->
  sphere_step ray s acc = (hit_at ray s tc, true).
Proof.
  intros Hc H1 H2. unfold sphere_step. rewrite Hc. now decide_cmp.
Qed.

Lemma sphere_step_reject (ray : Ray) (s : Sphere) (acc : HitInfo * bool) (tc : R) :
  candidate ray s = Some tc -> tc <= 0 \/ t (fst acc) <= tc ->
  sphere_step ray s acc = acc.
Proof.
  intros Hc H. unfold sphere_step. rewrite Hc.
  destruct H; decide_cmp; [reflexivity | now rewrite andb_false_r].
Qed.

Lemma sphere_step_absent (ray : Ray) (s : Sphere) (acc : HitInfo * bool) :
  candidate ray s = None -> sphere_step ray s acc = acc.
Proof. intros Hc. unfold sphere_step. now rewrite Hc. Qed.

Lemma hit_at_value (ray : Ray) (s : Sphere) (tc : R) (q nq : vec3) :
  pos ray +^ tc |* dir ray = q -> normalize (q -^ center s) = nq ->
  hit_at ray s tc = mkHitInfo tc q nq (mtl s).
Proof. intros Hq Hn. unfold hit_at. now rewrite Hq, Hn. Qed.

(** Unfolding the quadratic of a concrete ray and sphere. *)
Ltac quad_unfold :=
  unfold discriminant, quad_a, quad_b, quad_c, oc, dot, add, sub, neg,
    lscale, scale; cbn.

(** [candidate ray s = Some tc] on concrete numbers, given the square root
    [sq] of the discriminant. *)
Ltac candidate_is sq :=
  apply (candidate_value _ _ sq);
  [ lra
  | quad_unfold; lra
  | quad_unfold; first [ left; split; lra | right; split; lra ] ].

(** *** The first scene *)

Lemma Scene1_candidate_ray : candidate Scene1.ray Scene1.ball = Some 4.
Proof. candidate_is 2. Qed.

Lemma Scene1_candidate_away : candidate Scene1.away Scene1.ball = Some (-4).
Proof. candidate_is 2. Qed.

Lemma Scene1_hit_ray (h : HitInfo) :
  IntersectRay Scene1.spheres h Scene1.ray
  = (hit_at Scene1.ray Scene1.ball 4, true).
Proof.
  unfold IntersectRay, Scene1.spheres. cbn [fold_left].
  apply sphere_step_accept;
    [apply Scene1_candidate_ray | lra | cbn; unfold sentinel; lra].
Qed.

Lemma Scene1_miss_away (h : HitInfo) :
  IntersectRay Scene1.spheres h Scene1.away = (set_t h sentinel, false).
Proof.
  unfold IntersectRay, Scene1.spheres. cbn [fold_left].
  apply (sphere_step_reject _ _ _ (-4));
    [apply Scene1_candidate_away | left; lra].
Qed.

(** *** The third scene *)

Lemma Occluded_shadowRay_beyond :
  shadowRay Occluded.p Occluded.normal Occluded.beyond = Occluded.shadow.
Proof.
  unfold shadowRay, Occluded.shadow. f_equal.
  - unfold add, scale, bias. cbn. f_equal; lra.
  - apply (normalize_is _ _ 9); unfold dot; cbn; lra.
Qed.

Lemma Occluded_shadowRay_between :
  shadowRay Occluded.p Occluded.normal Occluded.between = Occluded.shadow.
Proof.
  unfold shadowRay, Occluded.shadow. f_equal.
  - unfold add, scale, bias. cbn. f_equal; lra.
  - apply (normalize_is _ _ 2); unfold dot; cbn; lra.
Qed.

Lemma Occluded_distance_beyond : distanceToLight Occluded.p Occluded.beyond = 9.
Proof. apply length_value; [lra | unfold dot; cbn; lra]. Qed.

Lemma Occluded_distance_between :
  distanceToLight Occluded.p Occluded.between = 2.
Proof. apply length_value; [lra | unfold dot; cbn; lra]. Qed.

Lemma Occluded_candidate_ball :
  candidate Occluded.shadow Scene1.ball = Some (-0.001).
Proof. candidate_is 2. Qed.

Lemma Occluded_candidate_occluder :
  candidate Occluded.shadow Occluded.occluder = Some 2.999.
Proof. candidate_is 2. Qed.

Lemma Occluded_hit_shadow (h : HitInfo) :
  IntersectRay Occluded.spheres h Occluded.shadow
  = (hit_at Occluded.shadow Occluded.occluder 2.999, true).
Proof.
  unfold IntersectRay, Occluded.spheres. cbn [fold_left].
  rewrite (sphere_step_reject Occluded.shadow Scene1.ball _ (-0.001));
    [| apply Occluded_candidate_ball | left; lra].
  apply sphere_step_accept;
    [apply Occluded_candidate_occluder | lra | cbn; unfold sentinel; lra].
Qed.

Lemma Occluded_shadowed_beyond (h : HitInfo) :
  shadowed Occluded.spheres h Occluded.p Occluded.normal Occluded.beyond = true.
Proof.
  unfold shadowed.
  rewrite Occluded_shadowRay_beyond, Occluded_hit_shadow,
    Occluded_distance_beyond.
  cbn [t hit_at andb]. now decide_cmp.
Qed.

Lemma Occluded_shadowed_between (h : HitInfo) :
  shadowed Occluded.spheres h Occluded.p Occluded.normal Occluded.between
  = false.
Proof.
  unfold shadowed.
  rewrite Occluded_shadowRay_between, Occluded_hit_shadow,
    Occluded_distance_between.
  cbn [t hit_at andb]. now decide_cmp.
Qed.

(** *** The fourth scene *)

Lemma Tangent_lightDir_lamp : lightDir Tangent.p Tangent.lamp = Vec3 1 0 0.
Proof. apply (normalize_is _ _ 5); unfold dot; cbn; lra. Qed.

Lemma Tangent_halfVector_lamp :
  halfVector Tangent.p Tangent.view Tangent.lamp = Vec3 1 0 0.
Proof.
  unfold halfVector. rewrite Tangent_lightDir_lamp.
  apply (normalize_is _ _ 2); unfold dot; cbn; lra.
Qed.

Lemma Tangent_NdotL_lamp :
  dot Tangent.normal (lightDir Tangent.p Tangent.lamp) = 0.
Proof. rewrite Tangent_lightDir_lamp. unfold dot. cbn. lra. Qed.

Lemma Tangent_NdotH_lamp :
  dot Tangent.normal (halfVector Tangent.p Tangent.view Tangent.lamp) = 0.
Proof. rewrite Tangent_halfVector_lamp. unfold dot. cbn. lra. Qed.

Lemma Tangent_shadowRay_lamp :
  shadowRay Tangent.p Tangent.normal Tangent.lamp = Tangent.shadow.
Proof.
  unfold shadowRay, Tangent.shadow. f_equal.
  - unfold add, scale, bias. cbn. f_equal; lra.
  - apply Tangent_lightDir_lamp.
Qed.

Lemma Tangent_miss_shadow (e : R) (h : HitInfo) :
  IntersectRay (Tangent.spheres e) h Tangent.shadow = (set_t h sentinel, false).
Proof.
  unfold IntersectRay, Tangent.spheres. cbn [fold_left].
  apply sphere_step_absent. apply candidate_absent. quad_unfold. lra.
Qed.

Lemma Tangent_unshadowed (e : R) (h : HitInfo) :
  shadowed (Tangent.spheres e) h Tangent.p Tangent.normal Tangent.lamp = false.
Proof.
  unfold shadowed. now rewrite Tangent_shadowRay_lamp, Tangent_miss_shadow.
Qed.

Lemma Tangent_candidate_grazing (e : R) :
  candidate Tangent.grazing (Tangent.ball e) = Some 5.
Proof. candidate_is 0. Qed.

Lemma Tangent_primary (e : R) (h : HitInfo) :
  IntersectRay (Tangent.spheres e) h Tangent.grazing = (Tangent.touch e, true).
Proof.
  unfold IntersectRay, Tangent.spheres. cbn [fold_left].
  rewrite (sphere_step_accept _ _ _ 5);
    [| apply Tangent_candidate_grazing | lra | cbn; unfold sentinel; lra].
  f_equal. apply hit_at_value.
  - unfold add, lscale. cbn. f_equal; lra.
  - apply (normalize_is _ _ 1); unfold dot; cbn; lra.
Qed.

Lemma Tangent_view : normalize (neg (dir Tangent.grazing)) = Tangent.view.
Proof. apply (normalize_is _ _ 1); unfold dot; cbn; lra. Qed.

(** *** The fifth scene *)

Lemma Mirrors_candidate_near : candidate Scene1.ray Mirrors.near = Some 4.
Proof. candidate_is 2. Qed.

Lemma Mirrors_candidate_opposite :
  candidate Scene1.ray Mirrors.opposite = Some (-4).
Proof. candidate_is 2. Qed.

Lemma Mirrors_first_hit :
  hit_at Scene1.ray Mirrors.near 4 = Mirrors.first_hit.
Proof.
  apply hit_at_value.
  - unfold add, lscale. cbn. f_equal; lra.
  - apply (normalize_is _ _ 1); unfold dot; cbn; lra.
Qed.

Lemma Mirrors_primary (h : HitInfo) :
  IntersectRay Mirrors.spheres h Scene1.ray = (Mirrors.first_hit, true).
Proof.
  unfold IntersectRay, Mirrors.spheres. cbn [fold_left].
  rewrite (sphere_step_accept Scene1.ray Mirrors.near _ 4);
    [| apply Mirrors_candidate_near | lra | cbn; unfold sentinel; lra].
  rewrite Mirrors_first_hit.
  apply (sphere_step_reject _ _ _ (-4));
    [apply Mirrors_candidate_opposite | left; lra].
Qed.

Lemma Mirrors_reflection_ray (ks clr : vec3) :
  reflection_ray (mkLoopState Scene1.ray Mirrors.first_hit ks clr)
  = Mirrors.bounce_ray.
Proof.
  unfold reflection_ray, Mirrors.bounce_ray, reflect, add, sub, scale, lscale,
    dot, bias.
  cbn. f_equal; f_equal; lra.
Qed.

Lemma Mirrors_bounce_near :
  candidate Mirrors.bounce_ray Mirrors.near = Some (-0.001).
Proof. candidate_is 2. Qed.

Lemma Mirrors_bounce_opposite :
  candidate Mirrors.bounce_ray Mirrors.opposite = Some 7.999.
Proof. candidate_is 2. Qed.

Lemma Mirrors_second_hit :
  hit_at Mirrors.bounce_ray Mirrors.opposite 7.999 = Mirrors.second_hit.
Proof.
  apply hit_at_value.
  - unfold add, lscale. cbn. f_equal; lra.
  - apply (normalize_is _ _ 1); unfold dot; cbn; lra.
Qed.

Lemma Mirrors_bounce (h : HitInfo) :
  IntersectRay Mirrors.spheres h Mirrors.bounce_ray
  = (Mirrors.second_hit, true).
Proof.
  unfold IntersectRay, Mirrors.spheres. cbn [fold_left].
  rewrite (sphere_step_reject Mirrors.bounce_ray Mirrors.near _ (-0.001));
    [| apply Mirrors_bounce_near | left; lra].
  rewrite <- Mirrors_second_hit.
  apply sphere_step_accept;
    [apply Mirrors_bounce_opposite | lra | cbn; unfold sentinel; lra].
Qed.

(** ** Float32: the order of the floats *)

Ltac key_cases :=
  first
    [ split; [ discriminate
             | intros (p & q & Hp & Hq & Hlex); exfalso;
               injection Hp as <-; injection Hq as <-; cbn in Hlex; lia ]
    | split; [ intros _; eexists; eexists; split; [reflexivity|];
               split; [reflexivity|]; cbn; lia
             | reflexivity ] ].

Lemma flt_key (u v : F32.float) :
  F32.flt u v = true <->
  exists p q, key u = Some p /\ key v = Some q /\ lex_lt p q.
Proof.
  unfold F32.flt, SFltb, SFcompare.
  destruct u as [su|su| |su mu eu], v as [sv|sv| |sv mv ev]; cbn [key];
    try (split; [discriminate | intros (p & q & Hp & Hq & _); discriminate]).
  all: try destruct su; try destruct sv.
  all: try (destruct (Z.compare_spec eu ev));
       try (change (Pos.compare_cont Eq mu mv) with (Pos.compare mu mv);
            destruct (Pos.compare_spec mu mv)); cbn [CompOpp].
  all: key_cases.
Qed.

Lemma fle_key (u v : F32.float) :
  F32.fle u v = true <->
  exists p q, key u = Some p /\ key v = Some q /\ ~ lex_lt q p.
Proof.
  unfold F32.fle, SFleb, SFcompare.
  destruct u as [su|su| |su mu eu], v as [sv|sv| |sv mv ev]; cbn [key];
    try (split; [discriminate | intros (p & q & Hp & Hq & _); discriminate]).
  all: try destruct su; try destruct sv.
  all: try (destruct (Z.compare_spec eu ev));
       try (change (Pos.compare_cont Eq mu mv) with (Pos.compare mu mv);
            destruct (Pos.compare_spec mu mv)); cbn [CompOpp].
  all: key_cases.
Qed.

Lemma flt_irrefl (u : F32.float) : F32.flt u u = false.
Proof.
  destruct (F32.flt u u) eqn:E; [|reflexivity].
  apply flt_key in E as (p & q & Hp & Hq & H). rewrite Hp in Hq.
  injection Hq as <-. destruct p as [[a b] c]. cbn in H. lia.
Qed.

Lemma flt_trans (u v w : F32.float) :
  F32.flt u v = true -> F32.flt v w = true -> F32.flt u w = true.
Proof.
  intros H1 H2. apply flt_key in H1 as (p & q & Hp & Hq & H1).
  apply flt_key in H2 as (q' & r & Hq' & Hr & H2).
  rewrite Hq in Hq'. injection Hq' as <-.
  apply flt_key. exists p, r. repeat split; try assumption.
  destruct p as [[a b] c], q as [[a' b'] c'], r as [[a'' b''] c''].
  cbn in *. lia.
Qed.

Lemma key_ordered (u : F32.float) : ordered u -> exists p, key u = Some p.
Proof. destruct u; cbn; intros H; try (eexists; reflexivity). now destruct H. Qed.

Lemma flt_ordered_r (u v : F32.float) : F32.flt u v = true -> ordered v.
Proof. intros H ->. destruct u; discriminate. Qed.

(** A float that is neither below [v] nor above it is not ordered with
    it: of three floats, the middle one not NaN, the first is below the
    second or the second below the third whenever the first is below the
    third. *)
Lemma flt_between (u v w : F32.float) :
  F32.flt u w = true -> ordered v -> F32.flt u v = true \/ F32.flt v w = true.
Proof.
  intros H Hv. apply flt_key in H as (p & r & Hp & Hr & H).
  destruct (key_ordered v Hv) as [q Hq].
  destruct p as [[a b] c], q as [[a' b'] c'], r as [[a'' b''] c'']. cbn in H.
  assert (D : lex_lt (a, b, c) (a', b', c')
              \/ lex_lt (a', b', c') (a'', b'', c'')) by (cbn; lia).
  destruct D as [D|D]; [left | right]; apply flt_key; eauto 6.
Qed.

Lemma fle_of_not_flt (u v : F32.float) :
  ordered u -> ordered v -> F32.flt v u = false -> F32.fle u v = true.
Proof.
  intros Hu Hv H. destruct (key_ordered u Hu) as [p Hp].
  destruct (key_ordered v Hv) as [q Hq].
  apply fle_key. exists p, q. repeat split; try assumption.
  intros L. assert (E : F32.flt v u = true) by (apply flt_key; eauto 6).
  congruence.
Qed.

(** ** Float32: values and comparisons *)

Lemma digits2_pos_size (m : positive) : digits2_pos m = Pos.size m.
Proof. induction m; cbn; congruence. Qed.

Lemma powerRZ_2_nonneg (k : Z) : (0 <= k)%Z -> powerRZ 2 k = IZR (2 ^ k).
Proof.
  destruct k as [|p|p]; intros H; [reflexivity | | lia].
  symmetry. apply Zpower_pos_powerRZ.
Qed.

Lemma powerRZ_2_neg (p : positive) :
  powerRZ 2 (Zneg p) = / IZR (2 ^ Zpos p).
Proof.
  change (Zneg p) with (- Zpos p)%Z. rewrite powerRZ_neg'.
  now rewrite powerRZ_2_nonneg by lia.
Qed.

Lemma powerRZ_2_pos (e : Z) : 0 < powerRZ 2 e.
Proof. apply powerRZ_lt. lra. Qed.

(** A float in canonical form has a mantissa below [2^24], and of at least
    [2^23] unless its exponent is the least one. *)
Lemma bounded_mantissa (m : positive) (e : Z) :
  bounded F32.prec F32.emax m e = true ->
  (Zpos m < 2 ^ 24)%Z /\ (-149 <= e)%Z /\
  ((-149 < e)%Z -> (2 ^ 23 <= Zpos m)%Z).
Proof.
  unfold bounded, canonical_mantissa, fexp, emin, F32.prec, F32.emax.
  rewrite andb_true_iff, Z.eqb_eq, Z.leb_le, digits2_pos_size.
  intros [Hc _].
  pose proof (Pos.size_gt m) as Hgt. pose proof (Pos.size_le m) as Hle.
  apply Pos2Z.pos_lt_pos in Hgt. apply Pos2Z.pos_le_pos in Hle.
  rewrite Pos2Z.inj_pow in Hgt, Hle.
  set (d := Zpos (Pos.size m)) in *.
  assert (Hd : (0 < d)%Z) by (unfold d; lia).
  assert (Hd24 : (d <= 24)%Z) by lia.
  pose proof (Z.pow_le_mono_r 2 d 24 ltac:(lia) Hd24) as Hp.
  split; [lia|]. split; [lia|]. intros He.
  assert (E : d = 24%Z) by lia. rewrite E in Hle.
  change (Zpos m~0) with (2 * Zpos m)%Z in Hle.
  change (2 ^ 24)%Z with (2 * 2 ^ 23)%Z in Hle. lia.
Qed.

Lemma finite_lt_exponent (m1 m2 : positive) (e1 e2 : Z) :
  bounded F32.prec F32.emax m1 e1 = true ->
  bounded F32.prec F32.emax m2 e2 = true ->
  (e1 < e2)%Z ->
  IZR (Zpos m1) * powerRZ 2 e1 < IZR (Zpos m2) * powerRZ 2 e2.
Proof.
  intros H1 H2 He.
  destruct (bounded_mantissa _ _ H1) as (Hm1 & Hlo & _).
  destruct (bounded_mantissa _ _ H2) as (_ & _ & Hm2).
  specialize (Hm2 ltac:(lia)).
  replace e2 with (e1 + (e2 - e1))%Z by lia.
  rewrite powerRZ_add by lra. rewrite (powerRZ_2_nonneg (e2 - e1)) by lia.
  pose proof (powerRZ_2_pos e1) as Hp.
  pose proof (Z.pow_le_mono_r 2 1 (e2 - e1) ltac:(lia) ltac:(lia)) as Hk.
  change (2 ^ 1)%Z with 2%Z in Hk.
  assert (Hz : (Zpos m1 < Zpos m2 * 2 ^ (e2 - e1))%Z).
  { change (2 ^ 24)%Z with (2 ^ 23 * 2)%Z in Hm1. nia. }
  apply IZR_lt in Hz. rewrite mult_IZR in Hz.
  rewrite <- Rmult_assoc, (Rmult_comm (IZR (Zpos m2))), Rmult_assoc.
  rewrite (Rmult_comm (IZR (Zpos m1))).
  apply Rmult_lt_compat_l; assumption.
Qed.

(** On positive floats in canonical form, [<] is the order of the values. *)
Lemma flt_val_pos (m1 m2 : positive) (e1 e2 : Z) :
  bounded F32.prec F32.emax m1 e1 = true ->
  bounded F32.prec F32.emax m2 e2 = true ->
  (F32.flt (S754_finite false m1 e1) (S754_finite false m2 e2) = true <->
   F32.val (S754_finite false m1 e1) < F32.val (S754_finite false m2 e2)).
Proof.
  intros H1 H2. unfold F32.flt, SFltb, SFcompare, F32.val. cbn [cond_Zopp].
  destruct (Z.compare_spec e1 e2) as [E|L|G].
  - subst e2. change (Pos.compare_cont Eq m1 m2) with (Pos.compare m1 m2).
    pose proof (powerRZ_2_pos e1) as Hp.
    destruct (Pos.compare_spec m1 m2) as [E|L|G].
    + subst. split; [discriminate | lra].
    + split; [intros _ | reflexivity].
      apply Rmult_lt_compat_r; [exact Hp | apply IZR_lt; lia].
    + split; [discriminate|]. intros H. exfalso.
      assert (IZR (Zpos m2) < IZR (Zpos m1)) by (apply IZR_lt; lia).
      nra.
  - split; [intros _ | reflexivity]. now apply finite_lt_exponent.
  - split; [discriminate|]. intros H. exfalso.
    pose proof (finite_lt_exponent _ _ _ _ H2 H1 G). lra.
Qed.

Lemma zero_is : F32.zero = S754_zero false.
Proof. reflexivity. Qed.

Lemma val_sign (sg : bool) (m : positive) (e : Z) :
  (sg = false -> 0 < F32.val (S754_finite sg m e)) /\
  (sg = true -> F32.val (S754_finite sg m e) < 0).
Proof.
  pose proof (powerRZ_2_pos e) as Hp.
  assert (Hm : 0 < IZR (Zpos m)) by (apply IZR_lt; lia).
  unfold F32.val. split; intros ->; cbn [cond_Zopp].
  - nra.
  - change (- Zpos m)%Z with (Z.opp (Zpos m)). rewrite opp_IZR. nra.
Qed.

(** The tests [u > 0.0] and [u >= 0.0] on a finite float. *)
Lemma fgt_zero_val (u : F32.float) :
  F32.finite u = true -> (F32.fgt u F32.zero = true <-> 0 < F32.val u).
Proof.
  unfold F32.fgt, F32.flt. rewrite zero_is.
  destruct u as [sg|sg| |sg m e]; try discriminate; intros _.
  - cbn. split; [discriminate | lra].
  - destruct (val_sign sg m e) as [Hp Hn].
    destruct sg; cbn [SFltb SFcompare]; split; try easy.
    + intros H. specialize (Hn eq_refl). lra.
    + intros _. now apply Hp.
Qed.

Lemma fge_zero_val (u : F32.float) :
  F32.finite u = true -> (F32.fge u F32.zero = true <-> 0 <= F32.val u).
Proof.
  unfold F32.fge, F32.fle. rewrite zero_is.
  destruct u as [sg|sg| |sg m e]; try discriminate; intros _.
  - cbn. split; [lra | reflexivity].
  - destruct (val_sign sg m e) as [Hp Hn].
    destruct sg; cbn [SFleb SFcompare]; split; try easy.
    + intros H. specialize (Hn eq_refl). lra.
    + intros _. left. now apply Hp.
Qed.

Lemma val_fneg (u : F32.float) : F32.val (F32.fneg u) = - F32.val u.
Proof.
  destruct u as [sg|sg| |sg m e]; cbn; try lra.
  destruct sg; cbn [negb cond_Zopp].
  - change (- Zpos m)%Z with (Z.opp (Zpos m)). rewrite opp_IZR. lra.
  - change (- Zpos m)%Z with (Z.opp (Zpos m)). rewrite opp_IZR. lra.
Qed.

(** ** Float32: operations that do not round *)

Lemma val_two : F32.val F32.two = 2.
Proof.
  change F32.two with (S754_finite false 8388608 (-22)).
  unfold F32.val, cond_Zopp. rewrite powerRZ_2_neg.
  change (2 ^ 22)%Z with 4194304%Z. lra.
Qed.

Lemma val_four : F32.val F32.four = 4.
Proof.
  change F32.four with (S754_finite false 8388608 (-21)).
  unfold F32.val, cond_Zopp. rewrite powerRZ_2_neg.
  change (2 ^ 21)%Z with 2097152%Z. lra.
Qed.

Lemma exact_dot_val (u v : F32.vec3) :
  exact_dot u v ->
  represents (F32.dot u v) (dot (vec3_val u) (vec3_val v)).
Proof.
  intros ((_ & _ & Hx) & (_ & _ & Hy) & (_ & _ & Hz) & (_ & _ & Hxy)
          & (Hf & Hv & Hd)).
  split; [exact Hf|]. split; [exact Hv|].
  unfold F32.dot. rewrite Hd, Hxy, Hx, Hy, Hz. reflexivity.
Qed.

Lemma exact_sub3_val (u v : F32.vec3) :
  exact_sub3 u v -> vec3_val (F32.sub u v) = vec3_val u -^ vec3_val v.
Proof.
  intros ((_ & _ & Hx) & (_ & _ & Hy) & (_ & _ & Hz)).
  unfold vec3_val, F32.sub, sub. cbn. now rewrite Hx, Hy, Hz.
Qed.

(** The locals of the loop body, when nothing rounds: each is the float
    of the number that the exact model computes. *)
Section Refinement.

Variable ray : F32.Ray.
Variable s : F32.Sphere.
Hypothesis H : no_rounding ray s.

Lemma exact_oc : vec3_val (F32.oc ray s) = oc (Ray_val ray) (Sphere_val s).
Proof. destruct H as (H1 & _). now apply exact_sub3_val. Qed.

Lemma exact_quad_a : represents (F32.quad_a ray) (quad_a (Ray_val ray)).
Proof. destruct H as (_ & H2 & _). now apply exact_dot_val. Qed.

Lemma exact_quad_b :
  represents (F32.quad_b ray s) (quad_b (Ray_val ray) (Sphere_val s)).
Proof.
  destruct H as (_ & _ & H3 & (Hf & Hv & H4) & _).
  apply exact_dot_val in H3 as (_ & _ & H3).
  split; [exact Hf|]. split; [exact Hv|].
  unfold F32.quad_b, quad_b. rewrite H4, H3, val_two, exact_oc. reflexivity.
Qed.

Lemma exact_quad_c :
  represents (F32.quad_c ray s) (quad_c (Ray_val ray) (Sphere_val s)).
Proof.
  destruct H as (_ & _ & _ & _ & H5 & (_ & _ & H6) & (Hf & Hv & H7) & _).
  apply exact_dot_val in H5 as (_ & _ & H5).
  split; [exact Hf|]. split; [exact Hv|].
  unfold F32.quad_c, quad_c. rewrite H7, H6, H5, exact_oc. reflexivity.
Qed.

Lemma exact_discriminant :
  represents (F32.discriminant ray s)
             (discriminant (Ray_val ray) (Sphere_val s)).
Proof.
  destruct H as (_ & _ & _ & _ & _ & _ & _ & (_ & _ & H8) & (_ & _ & H9)
                 & (_ & _ & H10) & (Hf & Hv & H11) & _).
  destruct exact_quad_a as (_ & _ & Ha). destruct exact_quad_b as (_ & _ & Hb).
  destruct exact_quad_c as (_ & _ & Hc).
  split; [exact Hf|]. split; [exact Hv|].
  unfold F32.discriminant, discriminant.
  rewrite H11, H10, H9, H8, Ha, Hb, Hc, val_four. reflexivity.
Qed.

Lemma fge_discriminant :
  F32.fge (F32.discriminant ray s) F32.zero
  = Rgeb (discriminant (Ray_val ray) (Sphere_val s)) 0.
Proof.
  destruct exact_discriminant as (Hf & _ & Hd).
  pose proof (fge_zero_val _ Hf) as E. rewrite Hd in E.
  destruct (Rgeb (discriminant (Ray_val ray) (Sphere_val s)) 0) eqn:G.
  - apply E. apply Rgeb_true_iff in G. lra.
  - apply Rgeb_false_iff in G.
    destruct (F32.fge (F32.discriminant ray s) F32.zero); [|reflexivity].
    assert (0 <= discriminant (Ray_val ray) (Sphere_val s)) by now apply E.
    lra.
Qed.

Hypothesis Hd : F32.fge (F32.discriminant ray s) F32.zero = true.

Lemma exact_sqrt_discriminant :
  represents (F32.sqrt_discriminant ray s)
             (sqrt_discriminant (Ray_val ray) (Sphere_val s)).
Proof.
  destruct H as (_ & _ & _ & _ & _ & _ & _ & _ & _ & _ & _ & H12).
  destruct (H12 Hd) as ((Hf & Hv & Hs) & _).
  destruct exact_discriminant as (_ & _ & E).
  split; [exact Hf|]. split; [exact Hv|].
  unfold F32.sqrt_discriminant, sqrt_discriminant. now rewrite Hs, E.
Qed.

Lemma exact_t1 : represents (F32.t1 ray s) (t1 (Ray_val ray) (Sphere_val s)).
Proof.
  destruct H as (_ & _ & _ & _ & _ & _ & _ & _ & _ & _ & _ & H12).
  destruct (H12 Hd) as
    (_ & (_ & _ & H2a) & (_ & _ & Hn) & (Hf & Hv & Hq) & _).
  destruct exact_quad_a as (_ & _ & Ha). destruct exact_quad_b as (_ & _ & Hb).
  destruct exact_sqrt_discriminant as (_ & _ & Hs).
  split; [exact Hf|]. split; [exact Hv|].
  unfold F32.t1, t1. rewrite Hq, Hn, H2a, val_fneg, Ha, Hb, Hs, val_two.
  reflexivity.
Qed.

Lemma exact_t2 : represents (F32.t2 ray s) (t2 (Ray_val ray) (Sphere_val s)).
Proof.
  destruct H as (_ & _ & _ & _ & _ & _ & _ & _ & _ & _ & _ & H12).
  destruct (H12 Hd) as
    (_ & (_ & _ & H2a) & _ & _ & (_ & _ & Hn) & (Hf & Hv & Hq)).
  destruct exact_quad_a as (_ & _ & Ha). destruct exact_quad_b as (_ & _ & Hb).
  destruct exact_sqrt_discriminant as (_ & _ & Hs).
  split; [exact Hf|]. split; [exact Hv|].
  unfold F32.t2, t2. rewrite Hq, Hn, H2a, val_fneg, Ha, Hb, Hs, val_two.
  reflexivity.
Qed.

End Refinement.

(** When nothing rounds, the float32 model and the exact model agree on
    whether there is a candidate, and the candidate computed is the exact
    one. *)
Lemma candidate_no_rounding (ray : F32.Ray) (s : F32.Sphere) :
  no_rounding ray s ->
  match F32.candidate ray s, candidate (Ray_val ray) (Sphere_val s) with
  | Some tf, Some tc => represents tf tc
  | None, None => True
  | _, _ => False
  end.
Proof.
  intros H. unfold F32.candidate, candidate.
  rewrite (fge_discriminant ray s H).
  destruct (Rgeb _ 0) eqn:G; [|exact I].
  rewrite <- (fge_discriminant ray s H) in G.
  pose proof (exact_t1 ray s H G) as E1.
  pose proof (exact_t2 ray s H G) as E2.
  destruct E1 as (Hf & Hv & E1).
  pose proof (fgt_zero_val _ Hf) as T. rewrite E1 in T.
  destruct (Rgtb (t1 _ _) 0) eqn:G1.
  - apply Rgtb_true_iff in G1. rewrite (proj2 T) by lra. now split.
  - apply Rgtb_false_iff in G1.
    destruct (F32.fgt (F32.t1 ray s) F32.zero); [|exact E2].
    pose proof (proj1 T eq_refl). lra.
Qed.


(** A float of positive value is a positive float in canonical form. *)
Lemma exact_positive (u : F32.float) (v : R) :
  represents u v -> 0 < v ->
  exists m e, u = S754_finite false m e /\ bounded F32.prec F32.emax m e = true.
Proof.
  intros (Hf & Hv & E) Hp. destruct u as [sg|sg| |sg m e]; try discriminate.
  - cbn in E. lra.
  - destruct (val_sign sg m e) as [_ Hn]. destruct sg.
    + specialize (Hn eq_refl). lra.
    + exists m, e. split; [reflexivity | exact Hv].
Qed.


(** Evaluating the floats under [val], and the values of the results. *)
Ltac float_compute :=
  repeat match goal with
  | |- context [F32.val ?f] =>
      lazymatch f with
      | S754_finite _ _ _ => fail
      | S754_zero _ => fail
      | S754_infinity _ => fail
      | S754_nan => fail
      | _ => let v := eval vm_compute in f in progress change f with v
      end
  end.

Ltac val_compute :=
  float_compute; cbv [F32.val cond_Zopp Z.opp];
  rewrite ?powerRZ_2_neg; rewrite ?powerRZ_2_nonneg by lia;
  repeat match goal with
  | |- context [IZR (2 ^ ?k)] =>
      let v := eval vm_compute in (2 ^ k)%Z in progress change (2 ^ k)%Z with v
  end.

Ltac exact_compute :=
  split; [vm_compute; reflexivity|]; split; [vm_compute; reflexivity|];
  val_compute.

(** ** Float32: the scan over the spheres *)

Section Scan32.

Variable ray : F32.Ray.

Lemma F32_sphere_step_cases (s : F32.Sphere) (acc : F32.HitInfo * bool) :
  (F32.sphere_step ray s acc = acc /\
   forall tc, F32.candidate ray s = Some tc -> F32.fgt tc F32.zero = true ->
              F32.flt tc (F32.t (fst acc)) = false)
  \/
  (exists tc, F32.candidate ray s = Some tc /\ F32.fgt tc F32.zero = true /\
              F32.flt tc (F32.t (fst acc)) = true /\
              F32.sphere_step ray s acc = (F32.hit_at ray s tc, true)).
Proof.
  unfold F32.sphere_step. destruct (F32.candidate ray s) as [tc|].
  - destruct (F32.fgt tc F32.zero) eqn:E1; cbn [andb].
    + destruct (F32.flt tc (F32.t (fst acc))) eqn:E2.
      * right. exists tc. now repeat split.
      * left. split; [reflexivity|]. now intros ? [= <-] _.
    + left. split; [reflexivity|]. intros ? [= <-] H. congruence.
  - left. split; [reflexivity | discriminate].
Qed.

(** An iteration leaves [hit.t] as it is or makes it smaller. *)
Lemma F32_sphere_step_le
    (s : F32.Sphere) (acc : F32.HitInfo * bool) (u : F32.float) :
  F32.flt u (F32.t (fst (F32.sphere_step ray s acc))) = true ->
  F32.flt u (F32.t (fst acc)) = true.
Proof.
  destruct (F32_sphere_step_cases s acc) as [[-> _] | (tc & _ & _ & Hlt & ->)];
    [easy|]. cbn [fst F32.t F32.hit_at]. intros H. now apply (flt_trans u tc).
Qed.

Lemma F32_sphere_step_below
    (s : F32.Sphere) (acc : F32.HitInfo * bool) (tc : F32.float) :
  F32.candidate ray s = Some tc -> F32.fgt tc F32.zero = true ->
  F32.flt tc (F32.t (fst (F32.sphere_step ray s acc))) = false.
Proof.
  intros Hc Hp.
  destruct (F32_sphere_step_cases s acc) as [[-> Hge] | (tc' & Hc' & _ & _ & ->)].
  - now apply Hge.
  - rewrite Hc in Hc'. injection Hc' as <-. cbn [fst F32.t F32.hit_at].
    apply flt_irrefl.
Qed.

Lemma fgt_zero_ordered (u : F32.float) : F32.fgt u F32.zero = true -> ordered u.
Proof. apply flt_ordered_r. Qed.

Lemma F32_scan_spec (l : list F32.Sphere) (acc : F32.HitInfo * bool) :
  (F32.scan ray l acc = acc /\
   forall s tc, In s l -> F32.candidate ray s = Some tc ->
                F32.fgt tc F32.zero = true ->
                F32.flt tc (F32.t (fst acc)) = false)
  \/
  (exists i s tc,
      nth_error l i = Some s /\ F32.candidate ray s = Some tc /\
      F32.fgt tc F32.zero = true /\ F32.flt tc (F32.t (fst acc)) = true /\
      F32.scan ray l acc = (F32.hit_at ray s tc, true) /\
      forall j s' tc',
        nth_error l j = Some s' -> F32.candidate ray s' = Some tc' ->
        F32.fgt tc' F32.zero = true ->
        F32.flt tc' tc = false /\ ((j < i)%nat -> F32.flt tc tc' = true)).
Proof.
  revert acc. induction l as [|s0 l IH]; intros acc.
  - left. split; [reflexivity | intros ? ? []].
  - cbn [F32.scan fold_left]. fold (F32.scan ray l (F32.sphere_step ray s0 acc)).
    pose proof (F32_sphere_step_le s0 acc) as Hle.
    pose proof (F32_sphere_step_below s0 acc) as Hbelow.
    destruct (IH (F32.sphere_step ray s0 acc)) as
      [[Heq Hall] | (i & s & tc & Hnth & Hc & Hpos & Hlt & Hres & Hmin)].
    + destruct (F32_sphere_step_cases s0 acc) as
        [[Hs Hge] | (tc & Hc & Hpos & Hlt & Hs)].
      * left. rewrite Heq, Hs. split; [reflexivity|].
        intros s tc [<-|Hin] Hc Hpos; [now apply Hge|].
        rewrite Hs in Hall. now apply (Hall s).
      * right. exists 0%nat, s0, tc. rewrite Heq, Hs in *.
        split; [reflexivity|]. split; [exact Hc|]. split; [exact Hpos|].
        split; [exact Hlt|]. split; [reflexivity|].
        intros j s' tc' Hj Hc' Hp'. split; [|lia].
        destruct j as [|j]; cbn in Hj.
        -- injection Hj as <-. rewrite Hc in Hc'. injection Hc' as <-.
           apply flt_irrefl.
        -- apply nth_error_In in Hj. apply (Hall s' tc' Hj Hc' Hp').
    + right. exists (S i), s, tc.
      split; [exact Hnth|]. split; [exact Hc|]. split; [exact Hpos|].
      split; [now apply Hle|]. split; [exact Hres|].
      intros j s' tc' Hj Hc' Hp'. destruct j as [|j]; cbn in Hj.
      * injection Hj as <-. specialize (Hbelow _ Hc' Hp').
        assert (Hst : F32.flt tc tc' = true).
        { destruct (flt_between tc tc' _ Hlt (fgt_zero_ordered _ Hp')) as [H|H];
            [exact H | congruence]. }
        split; [|intros _; exact Hst].
        destruct (F32.flt tc' tc) eqn:E; [|reflexivity].
        pose proof (flt_trans _ _ _ Hst E) as F. rewrite flt_irrefl in F.
        discriminate.
      * destruct (Hmin j s' tc' Hj Hc' Hp') as [H1 H2].
        split; [exact H1 | intros Hlt'; apply H2; lia].
Qed.

End Scan32.

Lemma F32_IntersectRay_true
    (spheres : list F32.Sphere) (hit0 : F32.HitInfo) (ray : F32.Ray) :
  snd (F32.IntersectRay spheres hit0 ray) = true ->
  exists i s tc,
    nth_error spheres i = Some s /\ F32.candidate ray s = Some tc /\
    F32.fgt tc F32.zero = true /\ F32.flt tc F32.sentinel = true /\
    F32.IntersectRay spheres hit0 ray = (F32.hit_at ray s tc, true) /\
    forall j s' tc',
      nth_error spheres j = Some s' -> F32.candidate ray s' = Some tc' ->
      F32.fgt tc' F32.zero = true ->
      F32.flt tc' tc = false /\ ((j < i)%nat -> F32.flt tc tc' = true).
Proof.
  change (F32.IntersectRay spheres hit0 ray)
    with (F32.scan ray spheres (F32.set_t hit0 F32.sentinel, false)).
  destruct (F32_scan_spec ray spheres (F32.set_t hit0 F32.sentinel, false)) as
    [[-> _] | (i & s & tc & Hn & Hc & Hp & Hl & Hr & Hm)];
    [discriminate | intros _].
  exists i, s, tc. cbn [fst F32.t F32.set_t] in Hl. repeat split; try assumption;
    now apply (Hm j s' tc').
Qed.

(** ** The exact model where a float32 scene does not round *)



(** ** The float32 scenes *)

(** The image of a scene, its floats evaluated. *)
Ltac image_compute :=
  cbv [Ray_val Sphere_val Material_val vec3_val
       Scene32.from Scene32.central Scene32.inner Scene32.ball Scene32.twin
       Scene32.behind Scene32.big Scene32.aside Scene32.slanted Scene32.origin Scene32.down Scene32.red
       Scene32.green
       F32.pos F32.dir F32.center F32.radius F32.mtl F32.x F32.y F32.z
       F32.k_d F32.k_s F32.n];
  val_compute;
  cbn [pos dir center radius mtl x y z].

Lemma Scene32_ball_val : Sphere_val Scene32.ball = Scene1.ball.
Proof.
  unfold Scene1.ball, Scene1.red. image_compute.
  repeat f_equal; lra.
Qed.


Lemma Scene32_from_4097 :
  Ray_val (Scene32.from 4097) = mkRay (Vec3 0 0 4097) (Vec3 0 0 (-1)).
Proof. image_compute. repeat f_equal; lra. Qed.



(** [no_rounding] on given floats: every operation is evaluated and its
    value compared with the exact one. *)
Ltac no_rounding_compute :=
  unfold no_rounding, exact_sub3, exact_dot, exact_sub, exact_mul,
    exact_add, exact_div, exact_sqrt;
  repeat match goal with
         | |- _ /\ _ => split
         | |- _ -> _ => intros _
         end;
  exact_compute.


Lemma Scene32_from_5_exact : no_rounding (Scene32.from 5) Scene32.ball.
Proof.
  no_rounding_compute; try lra.
  symmetry. apply sqrt_of_square; lra.
Qed.

Lemma Scene32_from_5_deep : no_rounding (Scene32.from 5) Scene32.deep.
Proof.
  no_rounding_compute; try lra.
  symmetry. apply sqrt_of_square; lra.
Qed.





(** ** A light below the tangent plane, in the fourth scene *)

Lemma dot_normalize_neg (u v : vec3) :
  dot u v < 0 -> dot u (normalize v) < 0.
Proof.
  intros H.
  assert (Hv : 0 < dot v v).
  { destruct u as [a b c], v as [d e f]. unfold dot in *. cbn in *.
    destruct (Req_dec d 0) as [->|]; [|nra].
    destruct (Req_dec e 0) as [->|]; [|nra].
    destruct (Req_dec f 0) as [->|]; [|nra]. lra. }
  assert (Hl : 0 < / length v)
    by (apply Rinv_0_lt_compat; unfold length; now apply sqrt_lt_R0).
  replace (dot u (normalize v)) with (dot u v * / length v)
    by (unfold dot, normalize, Rdiv; cbn; ring).
  nra.
Qed.

Lemma Tangent_lightDir_low :
  lightDir Tangent.p Tangent.low = Vec3 (-1104 / 1105) 0 (-47 / 1105).
Proof. apply (normalize_is _ _ 1105); unfold dot; cbn; lra. Qed.

Lemma Tangent_NdotL_low :
  dot Tangent.normal (lightDir Tangent.p Tangent.low) < 0.
Proof. rewrite Tangent_lightDir_low. unfold dot. cbn. lra. Qed.

Lemma Tangent_NdotH_low :
  dot Tangent.normal (halfVector Tangent.p Tangent.view Tangent.low) < 0.
Proof.
  unfold halfVector. apply dot_normalize_neg.
  rewrite Tangent_lightDir_low. unfold dot, add. cbn. lra.
Qed.

Lemma Tangent_unshadowed_low (m : Material) (h : HitInfo) :
  shadowed [mkSphere (Vec3 0 0 0) 1 m] h Tangent.p Tangent.normal Tangent.low
  = false.
Proof.
  unfold shadowed, shadowRay.
  change (normalize (position Tangent.low -^ Tangent.p))
    with (lightDir Tangent.p Tangent.low).
  rewrite Tangent_lightDir_low.
  unfold IntersectRay. cbn [fold_left].
  rewrite sphere_step_absent; [reflexivity|].
  apply candidate_absent. quad_unfold. unfold bias. lra.
Qed.

Lemma specular_clamped
    (pow : R -> R -> R) (m : Material) (p normal view : vec3) (l : Light) :
  dot normal (halfVector p view l) <= 0 ->
  specular pow m p normal view l = k_s m *^ intensity l *| pow 0 (n m).
Proof.
  intros H. unfold specular, NdotH. now rewrite max_clamp.
Qed.

(** * The claims *)

(** C1, as the shader computes it.  The distances that [IntersectRay]
    compares are the ones it computes, in float32 (lines 96 to 101): when
    it returns [true], [hit.t] is positive and below the sentinel; no
    sphere of the scene has a positive computed distance below [hit.t];
    [hit.t] is the distance computed for some sphere, the record is the one
    written for that sphere, and every sphere earlier in the array has its
    positive computed distance strictly farther (among equals the earliest
    wins).  A computed distance is the distance of an intersection where
    the arithmetic does not round: if no operation rounds for any sphere
    of the scene, [hit.t] is the distance of an intersection of the ray
    with a sphere of the scene, and no positive intersection distance with
    any of them is smaller. *)
Theorem IntersectRay_minimum_positive
    (spheres : list F32.Sphere) (hit0 : F32.HitInfo) (ray : F32.Ray)
    (hit : F32.HitInfo) :
  F32.IntersectRay spheres hit0 ray = (hit, true) ->
  (F32.fgt (F32.t hit) F32.zero = true /\
   F32.flt (F32.t hit) F32.sentinel = true) /\
  (forall s tc, In s spheres -> F32.candidate ray s = Some tc ->
                F32.fgt tc F32.zero = true ->
                F32.flt tc (F32.t hit) = false /\
                F32.fle (F32.t hit) tc = true) /\
  (exists i s,
    nth_error spheres i = Some s /\
    F32.candidate ray s = Some (F32.t hit) /\
    hit = F32.hit_at ray s (F32.t hit) /\
    forall j s' tc', (j < i)%nat -> nth_error spheres j = Some s' ->
      F32.candidate ray s' = Some tc' -> F32.fgt tc' F32.zero = true ->
      F32.flt (F32.t hit) tc' = true) /\
  ((forall s, In s spheres -> no_rounding ray s) ->
   (exists s, In s spheres /\
              on_sphere (Ray_val ray) (Sphere_val s) (F32.val (F32.t hit))) /\
   forall s tt, In s spheres -> on_sphere (Ray_val ray) (Sphere_val s) tt ->
                0 < tt -> F32.val (F32.t hit) <= tt).
Proof.
  intros H.
  assert (Ht : snd (F32.IntersectRay spheres hit0 ray) = true) by now rewrite H.
  destruct (F32_IntersectRay_true _ _ _ Ht) as
    (i & s & tc & Hn & Hc & Hp & Hl & Hr & Hm).
  rewrite H in Hr. injection Hr as ->. cbn [F32.t F32.hit_at].
  assert (Hmin : forall s' tc', In s' spheres ->
            F32.candidate ray s' = Some tc' -> F32.fgt tc' F32.zero = true ->
            F32.flt tc' tc = false).
  { intros s' tc' Hin Hc' Hp'. apply In_nth_error in Hin as [j Hj].
    now destruct (Hm j s' tc' Hj Hc' Hp'). }
  split; [now split|]. split; [|split].
  - intros s' tc' Hin Hc' Hp'. split; [now apply (Hmin s')|].
    apply fle_of_not_flt; [now apply fgt_zero_ordered .. | now apply (Hmin s')].
  - exists i, s. split; [exact Hn|]. split; [exact Hc|]. split; [reflexivity|].
    intros j s' tc' Hj Hnj Hc' Hp'. now apply (Hm j s' tc').
  - intros Hex. apply nth_error_In in Hn.
    pose proof (candidate_no_rounding ray s (Hex s Hn)) as Href.
    rewrite Hc in Href.
    destruct (candidate (Ray_val ray) (Sphere_val s)) as [tr|] eqn:Hcr;
      [|contradiction].
    assert (Hpr : 0 < tr).
    { destruct Href as (Hf & _ & E). rewrite <- E. now apply fgt_zero_val. }
    pose proof (candidate_pos_quad_a _ _ _ Hcr Hpr) as Ha.
    destruct (exact_positive tc tr Href Hpr) as (m & e & -> & Hb).
    destruct Href as (_ & _ & Ev). split.
    + exists s. split; [exact Hn|]. rewrite Ev.
      now apply candidate_on_sphere.
    + intros s' tt Hin Hon Hpos.
      destruct (candidate_least_positive _ (Sphere_val s') Ha tt Hon Hpos) as
        (tr' & Hcr' & Hpr' & Hle).
      pose proof (candidate_no_rounding ray s' (Hex s' Hin)) as Href'.
      rewrite Hcr' in Href'.
      destruct (F32.candidate ray s') as [tc'|] eqn:Hc'; [|contradiction].
      assert (Hp' : F32.fgt tc' F32.zero = true).
      { destruct Href' as (Hf & _ & E). apply fgt_zero_val; [exact Hf | lra]. }
      pose proof (Hmin s' tc' Hin Hc' Hp') as Hnot.
      destruct (exact_positive tc' tr' Href' Hpr') as (m' & e' & -> & Hb').
      destruct Href' as (_ & _ & Ev').
      pose proof (flt_val_pos m' m e' e Hb' Hb) as Hiff.
      rewrite Hnot in Hiff.
      assert (~ F32.val (S754_finite false m' e')
                < F32.val (S754_finite false m e))
        by (intros L; apply Hiff in L; discriminate).
      lra.
Qed.

(** The statement at two coincident spheres: the first one is reported.
    And at a farther sphere followed by a nearer one, for a ray where
    nothing rounds: the nearer one is reported, at the smallest positive
    intersection distance [4] over both. *)
Lemma IntersectRay_minimum_positive_witness :
  (F32.hit_mtl (fst (F32.IntersectRay [Scene32.ball; Scene32.twin]
                       Scene32.stale (Scene32.from 5))) = Scene32.red /\
   exists i s,
     nth_error [Scene32.ball; Scene32.twin] i = Some s /\
     F32.candidate (Scene32.from 5) s = Some (F32.of_Z 4) /\
     F32.hit_at (Scene32.from 5) Scene32.ball (F32.of_Z 4)
     = F32.hit_at (Scene32.from 5) s (F32.of_Z 4) /\
     forall j s' tc', (j < i)%nat ->
       nth_error [Scene32.ball; Scene32.twin] j = Some s' ->
       F32.candidate (Scene32.from 5) s' = Some tc' ->
       F32.fgt tc' F32.zero = true ->
       F32.flt (F32.of_Z 4) tc' = true) /\
  (F32.candidate (Scene32.from 5) Scene32.deep = Some (F32.of_Z 5) /\
   F32.IntersectRay [Scene32.deep; Scene32.ball] Scene32.stale (Scene32.from 5)
   = (F32.hit_at (Scene32.from 5) Scene32.ball (F32.of_Z 4), true) /\
   (exists s, In s [Scene32.deep; Scene32.ball] /\
      on_sphere (Ray_val (Scene32.from 5)) (Sphere_val s)
        (F32.val (F32.of_Z 4))) /\
   forall s tt, In s [Scene32.deep; Scene32.ball] ->
     on_sphere (Ray_val (Scene32.from 5)) (Sphere_val s) tt -> 0 < tt ->
     F32.val (F32.of_Z 4) <= tt).
Proof.
  split.
  - split; [vm_compute; reflexivity|].
    refine (proj1 (proj2 (proj2
      (IntersectRay_minimum_positive [Scene32.ball; Scene32.twin] Scene32.stale
         (Scene32.from 5)
         (F32.hit_at (Scene32.from 5) Scene32.ball (F32.of_Z 4)) _)))).
    vm_compute. reflexivity.
  - split; [vm_compute; reflexivity|]. split; [vm_compute; reflexivity|].
    refine (proj2 (proj2 (proj2
      (IntersectRay_minimum_positive [Scene32.deep; Scene32.ball]
         Scene32.stale (Scene32.from 5)
         (F32.hit_at (Scene32.from 5) Scene32.ball (F32.of_Z 4)) _))) _).
    + vm_compute. reflexivity.
    + intros s [<- | [<- | []]];
        [exact Scene32_from_5_deep | exact Scene32_from_5_exact].
Defined.

(** C1 as stated fails where the arithmetic rounds.  From [(0, 0, 4097)]
    the ray towards the origin meets the unit sphere at distance [4096];
    the distance computed for it is [4097], since [4097 * 4097 - 1] rounds
    to [4097 * 4097] and the discriminant to [0].  The sphere behind it is
    met at distance [4096.5] and gets [4096.55...]: it is the one reported,
    and the reported distance is above an intersection distance. *)
Lemma IntersectRay_minimum_positive_counterexample :
  snd (F32.IntersectRay [Scene32.ball; Scene32.behind] Scene32.stale
         (Scene32.from 4097)) = true /\
  F32.hit_mtl (fst (F32.IntersectRay [Scene32.ball; Scene32.behind]
                      Scene32.stale (Scene32.from 4097))) = Scene32.green /\
  F32.val (F32.t (fst (F32.IntersectRay [Scene32.ball; Scene32.behind]
                         Scene32.stale (Scene32.from 4097))))
  = 8389735 / 2048 /\
  F32.candidate (Scene32.from 4097) Scene32.ball = Some (F32.of_Z 4097) /\
  on_sphere (Ray_val (Scene32.from 4097)) (Sphere_val Scene32.ball) 4096 /\
  on_sphere (Ray_val (Scene32.from 4097)) (Sphere_val Scene32.behind) 4096.5 /\
  0 < 4096 < 8389735 / 2048.
Proof.
  split; [vm_compute; reflexivity|]. split; [vm_compute; reflexivity|].
  split; [|split; [vm_compute; reflexivity|]]; [|split; [|split; [|lra]]].
  - val_compute. lra.
  - rewrite Scene32_from_4097, Scene32_ball_val.
    unfold on_sphere, dot, add, sub, lscale. cbn. lra.
  - rewrite Scene32_from_4097. unfold on_sphere, dot, add, sub, lscale.
    image_compute. cbn. lra.
Qed.

(** C2: the alpha that [RayTracer] returns is [1] when [IntersectRay]
    reports a hit for the primary ray and [0] otherwise; it is [1] exactly
    when some sphere has a positive candidate below the sentinel; and when
    nothing is hit the colour is the environment colour looked up with the
    direction of the ray (swizzled [.xzy], as the shader does). *)
Theorem RayTracer_alpha
    (spheres : list Sphere) (lights : list Light) (envMap : vec3 -> vec3)
    (bounceLimit MAX_BOUNCES : Z) (pow : R -> R -> R) (uninit : HitInfo)
    (ray : Ray) :
  let out := RayTracer spheres lights envMap bounceLimit MAX_BOUNCES pow
               uninit ray in
  a out = (if snd (IntersectRay spheres uninit ray) then 1 else 0) /\
  (a out = 1 <->
   exists s tc, In s spheres /\ candidate ray s = Some tc /\
                0 < tc /\ tc < sentinel) /\
  (snd (IntersectRay spheres uninit ray) = false ->
   out = Vec4 (envMap (xzy (dir ray))) 0).
Proof.
  cbv zeta. rewrite <- (IntersectRay_true_iff spheres uninit ray).
  unfold RayTracer.
  destruct (IntersectRay spheres uninit ray) as [hit []]; cbn [a snd].
  - repeat split; auto. discriminate.
  - repeat split; try discriminate. intros H. lra.
Qed.

Lemma RayTracer_alpha_witness :
  a (RayTracer Scene1.spheres Scene1.lights Mirrors.sky 3 5 pow_ref
       Scene1.stale Scene1.ray) = 1 /\
  RayTracer Scene1.spheres Scene1.lights Mirrors.sky 3 5 pow_ref
    Scene1.stale Scene1.away
  = Vec4 (Mirrors.sky (xzy (dir Scene1.away))) 0.
Proof.
  split.
  - destruct (RayTracer_alpha Scene1.spheres Scene1.lights Mirrors.sky 3 5
                pow_ref Scene1.stale Scene1.ray) as (H & _).
    rewrite H, Scene1_hit_ray. reflexivity.
  - apply (RayTracer_alpha Scene1.spheres Scene1.lights Mirrors.sky 3 5
             pow_ref Scene1.stale Scene1.away).
    rewrite Scene1_miss_away. reflexivity.
Defined.

(** C3: the iteration for a light is left by [continue] exactly when
    [IntersectRay] on the shadow ray returns [true] and the distance it
    reports is less than the distance to the light; equivalently, when some
    sphere has a positive candidate on the shadow ray below the sentinel and
    below the distance to the light.  A hit at or beyond the light does not
    skip the light: its diffuse and specular terms are added. *)
Theorem light_skipped_iff
    (spheres : list Sphere) (pow : R -> R -> R) (uninit : HitInfo)
    (m : Material) (p normal view : vec3) (l : Light) :
  let shadowHit := fst (IntersectRay spheres uninit (shadowRay p normal l)) in
  let inShadow := snd (IntersectRay spheres uninit (shadowRay p normal l)) in
  (light_contribution spheres pow uninit m p normal view l = None <->
   inShadow = true /\ t shadowHit < distanceToLight p l) /\
  (light_contribution spheres pow uninit m p normal view l = None <->
   exists s tc, In s spheres /\
                candidate (shadowRay p normal l) s = Some tc /\
                0 < tc /\ tc < sentinel /\ tc < distanceToLight p l) /\
  (inShadow = true -> distanceToLight p l <= t shadowHit ->
   light_contribution spheres pow uninit m p normal view l
   = Some (diffuse m p normal l +^ specular pow m p normal view l)) /\
  (forall color,
     light_step spheres pow uninit m p normal view l color
     = match light_contribution spheres pow uninit m p normal view l with
       | None => color
       | Some c => color +^ c
       end).
Proof.
  cbv zeta. split; [|split; [|split]].
  - rewrite light_contribution_None. apply shadowed_true_iff.
  - rewrite light_contribution_None. apply shadowed_iff_occluder.
  - intros Hb Hd. apply light_contribution_Some.
    destruct (shadowed spheres uninit p normal l) eqn:E; [|reflexivity].
    apply shadowed_true_iff in E. lra.
  - reflexivity.
Qed.

(** The two lights of the third scene: the one beyond the occluder is
    skipped, the one between the spheres is not, though the shadow ray
    hits the occluder in both cases. *)
Lemma light_skipped_iff_witness :
  light_contribution Occluded.spheres pow_ref Scene1.stale Scene1.red
    Occluded.p Occluded.normal Occluded.view Occluded.beyond = None /\
  light_contribution Occluded.spheres pow_ref Scene1.stale Scene1.red
    Occluded.p Occluded.normal Occluded.view Occluded.between
  = Some (diffuse Scene1.red Occluded.p Occluded.normal Occluded.between
          +^ specular pow_ref Scene1.red Occluded.p Occluded.normal
               Occluded.view Occluded.between).
Proof.
  destruct (light_skipped_iff Occluded.spheres pow_ref Scene1.stale Scene1.red
              Occluded.p Occluded.normal Occluded.view Occluded.beyond)
    as (H1 & _).
  destruct (light_skipped_iff Occluded.spheres pow_ref Scene1.stale Scene1.red
              Occluded.p Occluded.normal Occluded.view Occluded.between)
    as (_ & _ & H3 & _).
  split.
  - apply H1. rewrite Occluded_shadowRay_beyond, Occluded_hit_shadow,
      Occluded_distance_beyond. cbn. split; [reflexivity | lra].
  - apply H3; rewrite Occluded_shadowRay_between, Occluded_hit_shadow;
      [reflexivity | rewrite Occluded_distance_between; cbn; lra].
Defined.

(** C4, as the shader has it: the loop tests the specular coefficient of
    the material of the current hit, [hit.mtl.k_s], not the running
    attenuation [k_s].  Once the channels of [hit.mtl.k_s] sum to at most
    [0] the loop ends with its variables as they are and no further
    iteration is executed.  On entry the running attenuation is
    [hit.mtl.k_s], so there the two tests agree. *)
Theorem loop_stops_without_specular
    (spheres : list Sphere) (lights : list Light) (envMap : vec3 -> vec3)
    (bounceLimit : Z) (pow : R -> R -> R) (uninit : HitInfo)
    (fuel : nat) (bounce : Z) (st : LoopState) :
  specular_sum (ls_hit st) <= 0 ->
  let res := reflect_loop spheres lights envMap bounceLimit pow uninit
               fuel bounce st in
  iterations res = 0%nat /\ final res = st /\
  forall ray hit,
    ls_k_s (loop_init spheres lights pow uninit ray hit) = k_s (hit_mtl hit).
Proof.
  intros H. cbv zeta.
  destruct (reflect_loop_no_specular spheres lights envMap bounceLimit pow
              uninit fuel bounce st H) as [Hi Hf].
  split; [exact Hi|]. split; [exact Hf|]. reflexivity.
Qed.

Lemma loop_stops_without_specular_witness :
  iterations
    (reflect_loop Scene1.spheres Scene1.lights Mirrors.sky 3 pow_ref
       Scene1.stale 5 0
       (mkLoopState Scene1.ray Scene1.stale (Vec3 1 1 1) vec3_0)) = 0%nat.
Proof.
  apply (loop_stops_without_specular Scene1.spheres Scene1.lights Mirrors.sky
           3 pow_ref Scene1.stale 5 0
           (mkLoopState Scene1.ray Scene1.stale (Vec3 1 1 1) vec3_0)).
  unfold specular_sum. cbn. lra.
Defined.

(** C4 as stated fails in the fifth scene: after the first bounce, from
    the red mirror to the green one, the running attenuation is
    [(1,0,0) * (0,1,0)], whose channels sum to [0]; the material of the
    current hit still has a positive sum, and the loop goes on to trace a
    second reflection ray. *)
Lemma loop_stops_without_specular_counterexample :
  let st0 := loop_init Mirrors.spheres Scene1.lights pow_ref Scene1.stale
               Scene1.ray Mirrors.first_hit in
  let st1 := hit_update Mirrors.spheres Scene1.lights pow_ref Scene1.stale
               st0 Mirrors.second_hit in
  IntersectRay Mirrors.spheres Scene1.stale Scene1.ray
  = (Mirrors.first_hit, true) /\
  reflect_loop Mirrors.spheres Scene1.lights Mirrors.sky 5 pow_ref
    Scene1.stale 5 0 st0
  = (let res := reflect_loop Mirrors.spheres Scene1.lights Mirrors.sky 5
                  pow_ref Scene1.stale 4 1 st1 in
     mkLoopResult (final res) (S (iterations res)) (exit res)) /\
  x (ls_k_s st1) + y (ls_k_s st1) + z (ls_k_s st1) <= 0 /\
  (1 <= iterations (reflect_loop Mirrors.spheres Scene1.lights Mirrors.sky 5
                      pow_ref Scene1.stale 4 1 st1))%nat /\
  (2 <= iterations (reflections Mirrors.spheres Scene1.lights Mirrors.sky 5 5
                      pow_ref Scene1.stale Scene1.ray Mirrors.first_hit))%nat.
Proof.
  intros st0 st1.
  assert (Hsum0 : 0 < specular_sum (ls_hit st0)).
  { unfold st0, loop_init, specular_sum, Mirrors.first_hit, Mirrors.reddish.
    cbn [ls_hit hit_mtl k_s x y z]. lra. }
  assert (Hb : IntersectRay Mirrors.spheres Scene1.stale (reflection_ray st0)
               = (Mirrors.second_hit, true)).
  { unfold st0, loop_init. cbv zeta. rewrite Mirrors_reflection_ray.
    apply Mirrors_bounce. }
  assert (Hstep : reflect_loop Mirrors.spheres Scene1.lights Mirrors.sky 5
                    pow_ref Scene1.stale 5 0 st0
                  = (let res := reflect_loop Mirrors.spheres Scene1.lights
                                  Mirrors.sky 5 pow_ref Scene1.stale 4 1 st1 in
                     mkLoopResult (final res) (S (iterations res)) (exit res))).
  { apply (reflect_loop_hit Mirrors.spheres Scene1.lights Mirrors.sky 5
             pow_ref Scene1.stale 4 0 st0 Mirrors.second_hit);
      [lia | exact Hsum0 | exact Hb]. }
  assert (Hrun : (1 <= iterations
                    (reflect_loop Mirrors.spheres Scene1.lights Mirrors.sky 5
                       pow_ref Scene1.stale 4 1 st1))%nat).
  { apply reflect_loop_runs; [lia|].
    unfold st1, hit_update, specular_sum, Mirrors.second_hit, Mirrors.greenish.
    cbn [ls_hit hit_mtl k_s x y z]. lra. }
  split; [apply Mirrors_primary|]. split; [exact Hstep|]. split; [|split].
  - unfold st1, hit_update, st0, loop_init, mul, Mirrors.second_hit,
      Mirrors.first_hit, Mirrors.greenish, Mirrors.reddish.
    cbn [ls_k_s hit_mtl k_s x y z]. lra.
  - exact Hrun.
  - unfold reflections. change (Z.to_nat 5) with 5%nat. fold st0.
    rewrite Hstep. cbn [iterations]. lia.
Qed.




(** C6: the loop executes at most [min(bounceLimit, MAX_BOUNCES)]
    iterations (none when that minimum is negative); with [bounceLimit = 0]
    it executes none, and [RayTracer] returns the colour that [Shade] gives
    for the primary hit, with alpha [1], whatever the material. *)
Theorem bounce_limit_bound
    (spheres : list Sphere) (lights : list Light) (envMap : vec3 -> vec3)
    (bounceLimit MAX_BOUNCES : Z) (pow : R -> R -> R) (uninit : HitInfo)
    (ray : Ray) (hit : HitInfo) :
  (iterations (reflections spheres lights envMap bounceLimit MAX_BOUNCES pow
                 uninit ray hit)
   <= Z.to_nat (Z.min bounceLimit MAX_BOUNCES))%nat /\
  (bounceLimit = 0%Z ->
   iterations (reflections spheres lights envMap bounceLimit MAX_BOUNCES pow
                 uninit ray hit) = 0%nat /\
   (IntersectRay spheres uninit ray = (hit, true) ->
    RayTracer spheres lights envMap bounceLimit MAX_BOUNCES pow uninit ray
    = Vec4 (Shade spheres lights pow uninit (hit_mtl hit) (hit_position hit)
              (hit_normal hit) (normalize (neg (dir ray)))) 1)).
Proof.
  split.
  - unfold reflections.
    destruct (reflect_loop_iterations spheres lights envMap bounceLimit pow
                uninit (Z.to_nat MAX_BOUNCES) 0
                (loop_init spheres lights pow uninit ray hit)) as [H1 H2].
    rewrite Z.sub_0_r in H2. lia.
  - intros E.
    destruct (reflect_loop_at_limit spheres lights envMap bounceLimit pow
                uninit (Z.to_nat MAX_BOUNCES) 0
                (loop_init spheres lights pow uninit ray hit)) as [Hi Hf];
      [lia|].
    split; [exact Hi|]. intros Hh. unfold RayTracer. rewrite Hh.
    unfold reflections. rewrite Hf. reflexivity.
Qed.

(** The red mirror of the fifth scene with [bounceLimit = 0]: no
    reflection is added although its specular coefficient is [(1,0,0)]. *)
Lemma bounce_limit_bound_witness :
  RayTracer Mirrors.spheres Scene1.lights Mirrors.sky 0 5 pow_ref
    Scene1.stale Scene1.ray
  = Vec4 (Shade Mirrors.spheres Scene1.lights pow_ref Scene1.stale
            Mirrors.reddish (Vec3 0 0 1) (Vec3 0 0 1)
            (normalize (neg (dir Scene1.ray)))) 1.
Proof.
  apply (bounce_limit_bound Mirrors.spheres Scene1.lights Mirrors.sky 0 5
           pow_ref Scene1.stale Scene1.ray Mirrors.first_hit);
    [reflexivity | apply Mirrors_primary].
Defined.

(** C7, as far as the clamps go: when [dot(normal, lightDir)] and
    [dot(normal, halfVector)] are both at most [0], the clamps
    [max(., 0.0)] make the diffuse term zero and the base of the power
    zero, so that the specular term is [k_s * intensity * pow(0.0, n)].  A
    light that is not skipped adds exactly that to [color], and the
    iteration leaves [color] as it was when [pow(0.0, n)] is [0].  Nothing
    is assumed of the built-in [pow]. *)
Theorem facing_away_light_adds_nothing
    (spheres : list Sphere) (pow : R -> R -> R) (uninit : HitInfo)
    (m : Material) (p normal view : vec3) (l : Light) (color : vec3) :
  dot normal (lightDir p l) <= 0 ->
  dot normal (halfVector p view l) <= 0 ->
  diffuse m p normal l = vec3_0 /\
  specular pow m p normal view l = k_s m *^ intensity l *| pow 0 (n m) /\
  light_step spheres pow uninit m p normal view l color
  = (if shadowed spheres uninit p normal l then color
     else color +^ k_s m *^ intensity l *| pow 0 (n m)) /\
  (pow 0 (n m) = 0 ->
   light_step spheres pow uninit m p normal view l color = color).
Proof.
  intros HL HH.
  pose proof (diffuse_facing_away m p normal l HL) as Hd.
  pose proof (specular_clamped pow m p normal view l HH) as Hs.
  assert (Hstep : light_step spheres pow uninit m p normal view l color
                  = (if shadowed spheres uninit p normal l then color
                     else color +^ k_s m *^ intensity l *| pow 0 (n m))).
  { unfold light_step, light_contribution.
    destruct (shadowed spheres uninit p normal l); [reflexivity|].
    rewrite Hd, Hs. destruct color. unfold add, vec3_0. cbn. f_equal; lra. }
  split; [exact Hd|]. split; [exact Hs|]. split; [exact Hstep|].
  intros Hpow. rewrite Hstep, Hpow.
  destruct (shadowed spheres uninit p normal l); [reflexivity|].
  destruct color. unfold add, mul, scale. cbn. f_equal; lra.
Qed.

(** A light strictly below the tangent plane of the fourth scene and on
    the far side of the viewer, and a sphere that reflects diffusely: both
    dot products are negative, the light is not in shadow, the diffuse term
    is zero although [k_d] is not, and with [pow(0, 1) = 0] the light adds
    nothing. *)
Lemma facing_away_light_adds_nothing_witness :
  dot Tangent.normal (lightDir Tangent.p Tangent.low) < 0 /\
  dot Tangent.normal (halfVector Tangent.p Tangent.view Tangent.low) < 0 /\
  shadowed [Tangent.satin_ball] Scene1.stale Tangent.p Tangent.normal
    Tangent.low = false /\
  k_d Tangent.satin = Vec3 1 1 1 /\
  diffuse Tangent.satin Tangent.p Tangent.normal Tangent.low = vec3_0 /\
  light_step [Tangent.satin_ball] pow_ref Scene1.stale Tangent.satin
    Tangent.p Tangent.normal Tangent.view Tangent.low (Vec3 1 2 3)
  = Vec3 1 2 3.
Proof.
  split; [exact Tangent_NdotL_low|]. split; [exact Tangent_NdotH_low|].
  split; [apply Tangent_unshadowed_low|]. split; [reflexivity|].
  destruct (facing_away_light_adds_nothing [Tangent.satin_ball] pow_ref
              Scene1.stale Tangent.satin Tangent.p Tangent.normal Tangent.view
              Tangent.low (Vec3 1 2 3)) as [Hd [_ [_ Hstep]]].
  - left. exact Tangent_NdotL_low.
  - left. exact Tangent_NdotH_low.
  - split; [exact Hd|]. apply Hstep. apply pow_ref_zero. cbn. lra.
Defined.

(** C7 as stated fails at the specular exponent [0]: in the fourth scene
    both dot products are [0] for the lamp, the light is not skipped, and
    with [pow(0, 0) = 1] it adds the specular term [k_s * intensity], which
    is [(1,1,1)].  This is the call of [Shade] that [RayTracer] makes for
    the ray that touches the sphere.  The light below the tangent plane,
    for which both dot products are negative, adds the same. *)
Lemma facing_away_light_adds_nothing_counterexample :
  0 <= n (Tangent.gloss 0) /\
  dot Tangent.normal (lightDir Tangent.p Tangent.lamp) <= 0 /\
  dot Tangent.normal (halfVector Tangent.p Tangent.view Tangent.lamp) <= 0 /\
  light_contribution (Tangent.spheres 0) pow_ref Scene1.stale (Tangent.gloss 0)
    Tangent.p Tangent.normal Tangent.view Tangent.lamp = Some (Vec3 1 1 1) /\
  Shade (Tangent.spheres 0) [Tangent.lamp] pow_ref Scene1.stale
    (Tangent.gloss 0) Tangent.p Tangent.normal Tangent.view = Vec3 1 1 1 /\
  RayTracer (Tangent.spheres 0) [Tangent.lamp] Mirrors.sky 0 5 pow_ref
    Scene1.stale Tangent.grazing = Vec4 (Vec3 1 1 1) 1 /\
  dot Tangent.normal (lightDir Tangent.p Tangent.low) < 0 /\
  dot Tangent.normal (halfVector Tangent.p Tangent.view Tangent.low) < 0 /\
  light_contribution (Tangent.spheres 0) pow_ref Scene1.stale (Tangent.gloss 0)
    Tangent.p Tangent.normal Tangent.view Tangent.low = Some (Vec3 1 1 1).
Proof.
  assert (Hc : light_contribution (Tangent.spheres 0) pow_ref Scene1.stale
                 (Tangent.gloss 0) Tangent.p Tangent.normal Tangent.view
                 Tangent.lamp = Some (Vec3 1 1 1)).
  { rewrite light_contribution_Some by apply Tangent_unshadowed.
    unfold diffuse, specular, NdotL, NdotH.
    rewrite Tangent_NdotL_lamp, Tangent_NdotH_lamp, (max_clamp 0) by lra.
    cbn [n Tangent.gloss]. rewrite pow_ref_zero_zero.
    unfold add, mul, scale. cbn. f_equal. f_equal; lra. }
  assert (Hs : Shade (Tangent.spheres 0) [Tangent.lamp] pow_ref Scene1.stale
                 (Tangent.gloss 0) Tangent.p Tangent.normal Tangent.view
               = Vec3 1 1 1).
  { unfold Shade. cbn [fold_left]. unfold light_step. rewrite Hc.
    unfold add, vec3_0. cbn. f_equal; lra. }
  assert (Hl : light_contribution (Tangent.spheres 0) pow_ref Scene1.stale
                 (Tangent.gloss 0) Tangent.p Tangent.normal Tangent.view
                 Tangent.low = Some (Vec3 1 1 1)).
  { rewrite light_contribution_Some
      by apply (Tangent_unshadowed_low (Tangent.gloss 0)).
    rewrite diffuse_facing_away by (left; exact Tangent_NdotL_low).
    rewrite specular_clamped by (left; exact Tangent_NdotH_low).
    cbn [n Tangent.gloss]. rewrite pow_ref_zero_zero.
    unfold add, mul, scale, vec3_0. cbn. f_equal. f_equal; lra. }
  split; [cbn; lra|].
  split; [rewrite Tangent_NdotL_lamp; lra|].
  split; [rewrite Tangent_NdotH_lamp; lra|].
  split; [exact Hc|]. split; [exact Hs|]. split.
  - rewrite (RayTracer_at_limit _ _ _ _ _ _ _ _ (Tangent.touch 0));
      [| lia | apply Tangent_primary].
    rewrite Tangent_view.
    change (Vec4 (Shade (Tangent.spheres 0) [Tangent.lamp] pow_ref Scene1.stale
                    (Tangent.gloss 0) Tangent.p Tangent.normal Tangent.view) 1
            = Vec4 (Vec3 1 1 1) 1).
    now rewrite Hs.
  - split; [exact Tangent_NdotL_low|]. split; [exact Tangent_NdotH_low|].
    exact Hl.
Qed.

(** C8, as the shader has it: [hit.t] is set to [1e30] on entry in every
    call; an iteration of the loop either leaves the record as it is or
    replaces it by a hit that is strictly closer; and a call that returns
    [false] returns the caller's record with [t] set to [1e30] and
    [position], [normal] and [mtl] as they were. *)
Theorem IntersectRay_frame
    (spheres : list Sphere) (hit : HitInfo) (ray : Ray) :
  snd (IntersectRay spheres hit ray) = false ->
  let hit' := fst (IntersectRay spheres hit ray) in
  (t hit' = sentinel /\
   hit_position hit' = hit_position hit /\
   hit_normal hit' = hit_normal hit /\
   hit_mtl hit' = hit_mtl hit) /\
  forall s acc,
    sphere_step ray s acc = acc \/
    (snd (sphere_step ray s acc) = true /\
     t (fst (sphere_step ray s acc)) < t (fst acc)).
Proof.
  intros H. rewrite (IntersectRay_false _ _ _ H). cbn. split; [easy|].
  intros s acc.
  destruct (sphere_step_cases ray s acc) as
    [[Hs _] | (tc & _ & _ & Hlt & Hs)]; [now left|].
  right. rewrite Hs. now split.
Qed.

Lemma IntersectRay_frame_witness :
  t (fst (IntersectRay Scene1.spheres Scene1.stale Scene1.away)) = sentinel /\
  hit_position (fst (IntersectRay Scene1.spheres Scene1.stale Scene1.away))
  = Vec3 1 2 3.
Proof.
  assert (H : snd (IntersectRay Scene1.spheres Scene1.stale Scene1.away) = false)
    by (rewrite Scene1_miss_away; reflexivity).
  destruct (IntersectRay_frame Scene1.spheres Scene1.stale Scene1.away H)
    as [(Ht & Hp & _) _].
  split; [exact Ht | exact Hp].
Defined.

(** C8 as stated fails: a call that returns [false] has changed the field
    [t] of the caller's record, here from [5] to [1e30]. *)
Lemma IntersectRay_frame_counterexample :
  snd (IntersectRay Scene1.spheres Scene1.stale Scene1.away) = false /\
  t Scene1.stale = 5 /\
  t (fst (IntersectRay Scene1.spheres Scene1.stale Scene1.away)) = sentinel /\
  fst (IntersectRay Scene1.spheres Scene1.stale Scene1.away) <> Scene1.stale.
Proof.
  rewrite Scene1_miss_away. cbn. repeat split.
  intros E. apply (f_equal t) in E. cbn in E. unfold sentinel in E. lra.
Qed.




(** C10: with diffuse and specular coefficients and light intensities that
    are at least [0] in every channel, every channel of the colour that
    [Shade] returns is at least [0].  Of [pow] only [pow(b, e) >= 0] for
    [b >= 0] is used. *)
Theorem Shade_nonneg
    (spheres : list Sphere) (lights : list Light) (pow : R -> R -> R)
    (uninit : HitInfo) (m : Material) (p normal view : vec3) :
  (forall b e, 0 <= b -> 0 <= pow b e) ->
  nonneg (k_d m) -> nonneg (k_s m) ->
  (forall l, In l lights -> nonneg (intensity l)) ->
  nonneg (Shade spheres lights pow uninit m p normal view).
Proof.
  intros Hpow Hd Hs Hl. unfold Shade.
  assert (H0 : nonneg vec3_0) by (unfold nonneg, vec3_0; cbn; lra).
  revert H0. generalize vec3_0.
  induction lights as [|l ls IH]; intros c Hc; [exact Hc|].
  cbn [fold_left]. apply IH; [intros l' Hin; apply Hl; now right|].
  destruct (light_step_cases spheres pow uninit m p normal view l c)
    as [-> | ->]; [exact Hc|].
  pose proof (diffuse_nonneg m p normal l Hd (Hl l (or_introl eq_refl)))
    as (?&?&?).
  pose proof (specular_nonneg pow m p normal view l Hpow Hs
                (Hl l (or_introl eq_refl))) as (?&?&?).
  destruct Hc as (?&?&?). unfold nonneg, add. cbn [x y z].
  repeat split; lra.
Qed.

Lemma Shade_nonneg_witness :
  nonneg (Shade Scene1.spheres Scene1.lights pow_ref Scene1.stale Scene1.red
            (Vec3 0 0 1) (Vec3 0 0 1) (Vec3 0 0 1)).
Proof.
  apply Shade_nonneg.
  - exact pow_ref_nonneg.
  - unfold nonneg. cbn. lra.
  - unfold nonneg. cbn. lra.
  - intros l [<- | []]. unfold nonneg. cbn. lra.
Defined.

(** * Further properties of the shader *)

(** ** The record of a hit *)

(** X1: When [IntersectRay] returns [true], the four fields of [hit] come from
    one and the same sphere of the scene: [t] is the distance computed for
    that sphere, [position] is [ray.pos + t * ray.dir], [normal] is
    [normalize(position - center)] for its centre, and [mtl] is its
    material. *)
Theorem IntersectRay_hit_record
    (spheres : list Sphere) (hit0 : HitInfo) (ray : Ray) (hit : HitInfo) :
  IntersectRay spheres hit0 ray = (hit, true) ->
  exists s,
    In s spheres /\
    candidate ray s = Some (t hit) /\
    hit_mtl hit = mtl s /\
    hit_position hit = pos ray +^ t hit |* dir ray /\
    hit_normal hit = normalize (hit_position hit -^ center s).
Proof.
  intros H.
  assert (Ht : snd (IntersectRay spheres hit0 ray) = true) by now rewrite H.
  destruct (IntersectRay_true _ _ _ Ht) as
    (i & s & tc & Hn & Hc & Hp & _ & Hr & _).
  rewrite H in Hr. injection Hr as ->. exists s.
  split; [now apply nth_error_In in Hn|]. now repeat split.
Qed.

Lemma IntersectRay_hit_record_witness :
  exists s,
    In s Mirrors.spheres /\
    candidate Scene1.ray s = Some (t Mirrors.first_hit) /\
    hit_mtl Mirrors.first_hit = mtl s /\
    hit_position Mirrors.first_hit
    = pos Scene1.ray +^ t Mirrors.first_hit |* dir Scene1.ray /\
    hit_normal Mirrors.first_hit
    = normalize (hit_position Mirrors.first_hit -^ center s).
Proof.
  exact (IntersectRay_hit_record Mirrors.spheres Scene1.stale Scene1.ray
           Mirrors.first_hit (Mirrors_primary Scene1.stale)).
Defined.

(** ** The scene as a set of spheres *)

(** A scene that contains every sphere of another reports a hit whenever
    the other does, at a distance that is not larger. *)
Lemma IntersectRay_incl
    (l l' : list Sphere) (h h' : HitInfo) (ray : Ray) :
  incl l l' ->
  snd (IntersectRay l h ray) = true ->
  snd (IntersectRay l' h' ray) = true /\
  t (fst (IntersectRay l' h' ray)) <= t (fst (IntersectRay l h ray)).
Proof.
  intros Hincl Ht.
  destruct (IntersectRay_true _ _ _ Ht) as
    (i & s & tc & Hn & Hc & Hp & Hl & Hr & _).
  apply nth_error_In in Hn.
  assert (Ht' : snd (IntersectRay l' h' ray) = true).
  { apply IntersectRay_true_iff. exists s, tc. repeat split; auto. }
  split; [exact Ht'|].
  destruct (IntersectRay_true _ _ _ Ht') as
    (i' & s' & tc' & _ & _ & _ & _ & Hr' & Hm').
  rewrite Hr, Hr'. cbn [fst t hit_at].
  destruct (In_nth_error _ _ (Hincl _ Hn)) as [j Hj].
  now destruct (Hm' j s tc Hj Hc Hp).
Qed.

(** X2: The boolean and the distance that [IntersectRay] returns depend only
    on which spheres the array holds, not on their order or multiplicity
    (the order decides only which of several spheres at the same distance
    gives [mtl] and [normal]). *)
Theorem IntersectRay_order_irrelevant
    (l l' : list Sphere) (h h' : HitInfo) (ray : Ray) :
  (forall s, In s l <-> In s l') ->
  snd (IntersectRay l h ray) = snd (IntersectRay l' h' ray) /\
  t (fst (IntersectRay l h ray)) = t (fst (IntersectRay l' h' ray)).
Proof.
  intros Hsame.
  assert (H1 : incl l l') by (intros s; apply Hsame).
  assert (H2 : incl l' l) by (intros s; apply Hsame).
  destruct (snd (IntersectRay l h ray)) eqn:E.
  - destruct (IntersectRay_incl l l' h h' ray H1 E) as [E' Hle].
    destruct (IntersectRay_incl l' l h' h ray H2 E') as [_ Hge].
    split; [now rewrite E' | lra].
  - destruct (snd (IntersectRay l' h' ray)) eqn:E'.
    + destruct (IntersectRay_incl l' l h' h ray H2 E') as [E'' _]. congruence.
    + split; [reflexivity|].
      rewrite (IntersectRay_false _ _ _ E), (IntersectRay_false _ _ _ E').
      reflexivity.
Qed.

Lemma IntersectRay_order_irrelevant_witness :
  snd (IntersectRay [Scene1.ball; Twins.twin] Scene1.stale Scene1.ray)
  = snd (IntersectRay [Twins.twin; Scene1.ball] Scene1.stale Scene1.ray) /\
  t (fst (IntersectRay [Scene1.ball; Twins.twin] Scene1.stale Scene1.ray))
  = t (fst (IntersectRay [Twins.twin; Scene1.ball] Scene1.stale Scene1.ray)).
Proof.
  apply IntersectRay_order_irrelevant.
  intros s. cbn. tauto.
Defined.

(** X3: Adding spheres to the scene never turns a hit into a miss and never
    moves the reported hit farther away. *)
Theorem IntersectRay_more_spheres
    (l more : list Sphere) (h h' : HitInfo) (ray : Ray) :
  snd (IntersectRay l h ray) = true ->
  snd (IntersectRay (l ++ more) h' ray) = true /\
  t (fst (IntersectRay (l ++ more) h' ray)) <= t (fst (IntersectRay l h ray)).
Proof.
  apply IntersectRay_incl. apply incl_appl, incl_refl.
Qed.

Lemma IntersectRay_more_spheres_witness :
  snd (IntersectRay ([Scene1.ball] ++ [Occluded.occluder]) Scene1.stale
         Scene1.ray) = true /\
  t (fst (IntersectRay ([Scene1.ball] ++ [Occluded.occluder]) Scene1.stale
            Scene1.ray))
  <= t (fst (IntersectRay [Scene1.ball] Scene1.stale Scene1.ray)).
Proof.
  apply IntersectRay_more_spheres.
  change [Scene1.ball] with Scene1.spheres. now rewrite Scene1_hit_ray.
Defined.

(** ** Lights in shadow *)

(** X8: Lights that are skipped can be left out: when every light of the
    array is in shadow, [Shade] returns black. *)
Theorem Shade_all_shadowed
    (spheres : list Sphere) (lights : list Light)
    (pow : R -> R -> R) (uninit : HitInfo)
    (m : Material) (p normal view : vec3) :
  (forall l, In l lights -> shadowed spheres uninit p normal l = true) ->
  Shade spheres lights pow uninit m p normal view = vec3_0.
Proof.
  intros H. unfold Shade. generalize vec3_0.
  induction lights as [|l ls IH]; intros c; [reflexivity|].
  cbn [fold_left]. rewrite IH by (intros l' Hl'; apply H; now right).
  unfold light_step, light_contribution.
  now rewrite (H l (or_introl eq_refl)).
Qed.

Lemma Shade_all_shadowed_witness :
  Shade Occluded.spheres [Occluded.beyond] pow_ref Scene1.stale Scene1.red
    Occluded.p Occluded.normal Occluded.view = vec3_0.
Proof.
  apply Shade_all_shadowed.
  intros l [<- | []]. apply Occluded_shadowed_beyond.
Defined.

(** ** [RayTracer] on particular primary hits *)

(** X9: A surface without specular coefficient: whatever the bounce limit,
    the colour is the direct shading of the primary hit. *)
Theorem RayTracer_no_specular
    (spheres : list Sphere) (lights : list Light) (envMap : vec3 -> vec3)
    (bounceLimit MAX_BOUNCES : Z) (pow : R -> R -> R) (uninit : HitInfo)
    (ray : Ray) (hit : HitInfo) :
  IntersectRay spheres uninit ray = (hit, true) ->
  specular_sum hit <= 0 ->
  RayTracer spheres lights envMap bounceLimit MAX_BOUNCES pow uninit ray
  = Vec4 (Shade spheres lights pow uninit (hit_mtl hit) (hit_position hit)
            (hit_normal hit) (normalize (neg (dir ray)))) 1.
Proof.
  intros Hh Hs. unfold RayTracer. rewrite Hh. unfold reflections.
  destruct (reflect_loop_no_specular spheres lights envMap bounceLimit pow
              uninit (Z.to_nat MAX_BOUNCES) 0
              (loop_init spheres lights pow uninit ray hit) Hs) as [_ Hf].
  now rewrite Hf.
Qed.

Lemma RayTracer_no_specular_witness :
  RayTracer Scene1.spheres Scene1.lights Mirrors.sky 3 5 pow_ref Scene1.stale
    Scene1.ray
  = Vec4 (Shade Scene1.spheres Scene1.lights pow_ref Scene1.stale
            (hit_mtl (hit_at Scene1.ray Scene1.ball 4))
            (hit_position (hit_at Scene1.ray Scene1.ball 4))
            (hit_normal (hit_at Scene1.ray Scene1.ball 4))
            (normalize (neg (dir Scene1.ray)))) 1.
Proof.
  apply RayTracer_no_specular.
  - apply Scene1_hit_ray.
  - unfold specular_sum. cbn. lra.
Defined.

(** X10: A specular surface whose reflection ray leaves the scene: with a
    bounce limit and a [MAX_BOUNCES] of at least [1], the colour is the
    direct shading of the primary hit plus its specular coefficient times
    the environment colour in the reflected direction. *)
Theorem RayTracer_reflects_environment
    (spheres : list Sphere) (lights : list Light) (envMap : vec3 -> vec3)
    (bounceLimit MAX_BOUNCES : Z) (pow : R -> R -> R) (uninit : HitInfo)
    (ray : Ray) (hit : HitInfo) :
  (0 < bounceLimit)%Z -> (0 < MAX_BOUNCES)%Z ->
  IntersectRay spheres uninit ray = (hit, true) ->
  0 < specular_sum hit ->
  snd (IntersectRay spheres uninit
         (mkRay (hit_position hit +^ hit_normal hit *| bias)
                (reflect (dir ray) (hit_normal hit)))) = false ->
  RayTracer spheres lights envMap bounceLimit MAX_BOUNCES pow uninit ray
  = Vec4 (Shade spheres lights pow uninit (hit_mtl hit) (hit_position hit)
            (hit_normal hit) (normalize (neg (dir ray)))
          +^ k_s (hit_mtl hit)
             *^ envMap (xzy (reflect (dir ray) (hit_normal hit)))) 1.
Proof.
  intros Hl Hm Hh Hs Hmiss. unfold RayTracer. rewrite Hh. unfold reflections.
  destruct (Z.to_nat MAX_BOUNCES) as [|fuel] eqn:E; [lia|].
  cbn [reflect_loop].
  destruct (Z.geb_spec 0 bounceLimit) as [Hge|_]; [lia|].
  unfold loop_init at 1. cbv zeta. cbn [ls_hit].
  rewrite (proj2 (Rleb_false_iff _ _)) by exact Hs.
  unfold loop_init at 1. cbv zeta.
  change (reflection_ray
            (mkLoopState ray hit (k_s (hit_mtl hit))
               (Shade spheres lights pow uninit (hit_mtl hit)
                  (hit_position hit) (hit_normal hit)
                  (normalize (neg (dir ray))))))
    with (mkRay (hit_position hit +^ hit_normal hit *| bias)
                (reflect (dir ray) (hit_normal hit))).
  destruct (IntersectRay spheres uninit
              (mkRay (hit_position hit +^ hit_normal hit *| bias)
                     (reflect (dir ray) (hit_normal hit)))) as [h found].
  cbn [snd] in Hmiss. subst found. reflexivity.
Qed.

Lemma RayTracer_reflects_environment_witness :
  RayTracer [Mirrors.near] Scene1.lights Mirrors.sky 1 5 pow_ref Scene1.stale
    Scene1.ray
  = Vec4 (Shade [Mirrors.near] Scene1.lights pow_ref Scene1.stale
            Mirrors.reddish (Vec3 0 0 1) (Vec3 0 0 1)
            (normalize (neg (dir Scene1.ray)))
          +^ Vec3 1 0 0 *^ Mirrors.sky (xzy (reflect (dir Scene1.ray) (Vec3 0 0 1))))
         1.
Proof.
  apply (RayTracer_reflects_environment [Mirrors.near] Scene1.lights
           Mirrors.sky 1 5 pow_ref Scene1.stale Scene1.ray Mirrors.first_hit).
  - lia.
  - lia.
  - unfold IntersectRay. cbn [fold_left]. rewrite <- Mirrors_first_hit.
    apply sphere_step_accept;
      [apply Mirrors_candidate_near | lra | cbn; unfold sentinel; lra].
  - unfold specular_sum. cbn. lra.
  - change (mkRay (hit_position Mirrors.first_hit
                   +^ hit_normal Mirrors.first_hit *| bias)
                  (reflect (dir Scene1.ray) (hit_normal Mirrors.first_hit)))
      with (reflection_ray
              (mkLoopState Scene1.ray Mirrors.first_hit vec3_0 vec3_0)).
    rewrite Mirrors_reflection_ray. unfold IntersectRay. cbn [fold_left].
    rewrite (sphere_step_reject _ _ _ (-0.001));
      [reflexivity | apply Mirrors_bounce_near | left; lra].
Defined.

(** ** Colours are never negative *)

Lemma nonneg_add (u v : vec3) : nonneg u -> nonneg v -> nonneg (u +^ v).
Proof.
  intros (?&?&?) (?&?&?). unfold nonneg, add. cbn [x y z]. repeat split; lra.
Qed.

Lemma nonneg_mul (u v : vec3) : nonneg u -> nonneg v -> nonneg (u *^ v).
Proof.
  intros (?&?&?) (?&?&?). unfold nonneg, mul. cbn [x y z].
  repeat split; apply Rmult_le_pos; assumption.
Qed.

Section Nonnegative.

Variable spheres : list Sphere.
Variable lights : list Light.
Variable envMap : vec3 -> vec3.
Variable bounceLimit : Z.
Variable pow : R -> R -> R.
Variable uninit : HitInfo.

Hypothesis pow_nonneg : forall b e, 0 <= b -> 0 <= pow b e.
Hypothesis spheres_nonneg :
  forall s, In s spheres -> nonneg (k_d (mtl s)) /\ nonneg (k_s (mtl s)).
Hypothesis lights_nonneg : forall l, In l lights -> nonneg (intensity l).
Hypothesis envMap_nonneg : forall d, nonneg (envMap d).

Lemma Shade_channels_nonneg (m : Material) (p normal view : vec3) :
  nonneg (k_d m) -> nonneg (k_s m) ->
  nonneg (Shade spheres lights pow uninit m p normal view).
Proof.
  intros Hd Hs. unfold Shade.
  assert (H0 : nonneg vec3_0) by (unfold nonneg, vec3_0; cbn; lra).
  revert H0. generalize vec3_0. clear spheres_nonneg envMap_nonneg.
  induction lights as [|l ls IH]; intros c Hc; [exact Hc|].
  cbn [fold_left].
  apply IH; [intros l' Hin; apply lights_nonneg; now right|].
  destruct (light_step_cases spheres pow uninit m p normal view l c)
    as [-> | ->]; [exact Hc|].
  apply nonneg_add; [exact Hc|]. apply nonneg_add.
  - apply diffuse_nonneg; [exact Hd | apply lights_nonneg; now left].
  - apply specular_nonneg;
      [exact pow_nonneg | exact Hs | apply lights_nonneg; now left].
Qed.

(** A hit of [IntersectRay] carries the material of a sphere of the
    scene. *)
Lemma hit_material_nonneg (h0 : HitInfo) (ray : Ray) (h : HitInfo) :
  IntersectRay spheres h0 ray = (h, true) ->
  nonneg (k_d (hit_mtl h)) /\ nonneg (k_s (hit_mtl h)).
Proof.
  intros H.
  assert (Ht : snd (IntersectRay spheres h0 ray) = true) by now rewrite H.
  destruct (IntersectRay_true _ _ _ Ht) as
    (i & s & tc & Hn & _ & _ & _ & Hr & _).
  rewrite H in Hr. injection Hr as ->. apply nth_error_In in Hn.
  now apply spheres_nonneg.
Qed.

Lemma reflect_loop_nonneg (fuel : nat) (bounce : Z) (st : LoopState) :
  nonneg (ls_k_s st) -> nonneg (ls_clr st) ->
  nonneg (ls_clr (final (reflect_loop spheres lights envMap bounceLimit pow
                           uninit fuel bounce st))).
Proof.
  revert bounce st. induction fuel as [|fuel IH]; intros bounce st Hk Hc;
    [exact Hc|].
  cbn [reflect_loop].
  destruct (bounce >=? bounceLimit)%Z; [exact Hc|].
  destruct (Rleb (specular_sum (ls_hit st)) 0); [exact Hc|].
  destruct (IntersectRay spheres uninit (reflection_ray st)) as [h found] eqn:E.
  destruct found; cbn [final].
  - destruct (hit_material_nonneg _ _ _ E) as [Hd Hs].
    apply IH; unfold hit_update; cbv zeta; cbn [ls_k_s ls_clr].
    + now apply nonneg_mul.
    + apply nonneg_add; [exact Hc|]. apply nonneg_mul; [exact Hk|].
      now apply Shade_channels_nonneg.
  - unfold miss_update. cbn [ls_clr]. apply nonneg_add; [exact Hc|].
    apply nonneg_mul; [exact Hk | apply envMap_nonneg].
Qed.

End Nonnegative.

(** X11: With material coefficients, light intensities and environment colours
    that are at least [0] in every channel, every colour channel that
    [RayTracer] returns is at least [0], for every bounce limit.  Of [pow]
    only [pow(b, e) >= 0] for [b >= 0] is used. *)
Theorem RayTracer_nonneg
    (spheres : list Sphere) (lights : list Light) (envMap : vec3 -> vec3)
    (bounceLimit MAX_BOUNCES : Z) (pow : R -> R -> R) (uninit : HitInfo)
    (ray : Ray) :
  (forall b e, 0 <= b -> 0 <= pow b e) ->
  (forall s, In s spheres -> nonneg (k_d (mtl s)) /\ nonneg (k_s (mtl s))) ->
  (forall l, In l lights -> nonneg (intensity l)) ->
  (forall d, nonneg (envMap d)) ->
  nonneg (rgb (RayTracer spheres lights envMap bounceLimit MAX_BOUNCES pow
                 uninit ray)).
Proof.
  intros Hpow Hsph Hli Henv. unfold RayTracer.
  destruct (IntersectRay spheres uninit ray) as [hit found] eqn:E.
  destruct found; cbn [rgb]; [|apply Henv].
  destruct (hit_material_nonneg spheres Hsph _ _ _ E) as [Hd Hs].
  unfold reflections.
  apply (reflect_loop_nonneg spheres lights envMap bounceLimit pow uninit
           Hpow Hsph Hli Henv);
    unfold loop_init; cbv zeta; cbn [ls_k_s ls_clr]; [exact Hs|].
  now apply Shade_channels_nonneg.
Qed.

Lemma RayTracer_nonneg_witness :
  nonneg (rgb (RayTracer Mirrors.spheres Scene1.lights Mirrors.sky 5 5 pow_ref
                 Scene1.stale Scene1.ray)).
Proof.
  apply RayTracer_nonneg.
  - exact pow_ref_nonneg.
  - intros s [<- | [<- | []]]; unfold nonneg; cbn; lra.
  - intros l [<- | []]. unfold nonneg. cbn. lra.
  - intros d. unfold nonneg. cbn. lra.
Defined.

(** ** Locals without a value *)

(** X12: [Shade] and [RayTracer] pass a [HitInfo] that was never given a value
    to [IntersectRay].  Whatever it holds, they return the same colour:
    nothing of it reaches the result. *)
Theorem uninitialised_locals_irrelevant
    (spheres : list Sphere) (lights : list Light) (envMap : vec3 -> vec3)
    (bounceLimit MAX_BOUNCES : Z) (pow : R -> R -> R) (u1 u2 : HitInfo)
    (m : Material) (p normal view : vec3) (ray : Ray) :
  Shade spheres lights pow u1 m p normal view
  = Shade spheres lights pow u2 m p normal view /\
  RayTracer spheres lights envMap bounceLimit MAX_BOUNCES pow u1 ray
  = RayTracer spheres lights envMap bounceLimit MAX_BOUNCES pow u2 ray.
Proof.
  split; [apply Shade_uninit_irrelevant | apply RayTracer_uninit_irrelevant].
Qed.

(** * Properties of the 2D transformations *)

Section Project2Facts.

Import Project2.

(** X14: The identity matrix is a unit of [ApplyTransform] on both sides:
    chaining a transformation with the identity, before or after it, gives
    the transformation back. *)
Theorem ApplyTransform_identity (a : mat3) :
  ApplyTransform identity a = a /\ ApplyTransform a identity = a.
Proof.
  destruct a. unfold ApplyTransform, identity.
  cbn [e0 e1 e2 e3 e4 e5 e6 e7 e8]. split; f_equal; ring.
Qed.

Lemma radians_0 : 0 * PI / 180 = 0.
Proof. unfold Rdiv. ring. Qed.

(** X15: "The transformation first applies scale, then rotation, and finally
    translation": [GetTransform] is the scaling, chained with the rotation,
    chained with the translation. *)
Theorem GetTransform_scale_rotate_translate
    (positionX positionY rotation scale : R) :
  GetTransform positionX positionY rotation scale
  = ApplyTransform
      (ApplyTransform (GetTransform 0 0 0 scale) (GetTransform 0 0 rotation 1))
      (GetTransform positionX positionY 0 1).
Proof.
  unfold GetTransform, ApplyTransform. cbv zeta.
  cbn [e0 e1 e2 e3 e4 e5 e6 e7 e8].
  rewrite radians_0, cos_0, sin_0. f_equal; ring.
Qed.

End Project2Facts.

(** * Properties of the image compositing *)

Section CompositingFacts.

Import Compositing.

(** ** Reads and stores *)

Lemma replace_nth_length (d : list Z) (k : nat) (v : Z) :
  List.length (replace_nth d k v) = List.length d.
Proof.
  revert k. induction d as [|u d IH]; intros [|k]; cbn; auto.
Qed.

Lemma nth_error_replace_nth (d : list Z) (k j : nat) (v : Z) :
  nth_error (replace_nth d k v) j
  = if (Nat.eqb j k && Nat.ltb k (List.length d))%bool
    then Some v else nth_error d j.
Proof.
  revert k j. induction d as [|u d IH]; intros k j.
  - cbn. destruct k, j; cbn; try reflexivity.
    all: now rewrite andb_false_r.
  - destruct k as [|k], j as [|j]; cbn [replace_nth nth_error List.length];
      try reflexivity.
    rewrite IH. reflexivity.
Qed.

Lemma write_length (d : list Z) (i v : Z) :
  List.length (write d i v) = List.length d.
Proof.
  unfold write. destruct (i <? 0)%Z; [reflexivity|].
  apply replace_nth_length.
Qed.

(** A store changes the byte at its index, if that is inside the array,
    and nothing else. *)
Lemma read_write (d : list Z) (i v j : Z) :
  read (write d i v) j
  = if ((j =? i) && (0 <=? i) && (i <? Z.of_nat (List.length d)))%Z%bool
    then Some (clamp v) else read d j.
Proof.
  unfold read, write.
  destruct (Z.ltb_spec j 0) as [Hj|Hj].
  - destruct (Z.eqb_spec j i) as [->|Hne]; cbn [andb]; [|reflexivity].
    destruct (Z.leb_spec 0 i); [lia | reflexivity].
  - destruct (Z.ltb_spec i 0) as [Hi|Hi].
    + destruct (Z.leb_spec 0 i); [lia|]. now rewrite andb_false_r.
    + rewrite nth_error_replace_nth.
      destruct (Z.leb_spec 0 i); [|lia]. rewrite andb_true_r.
      destruct (Z.eqb_spec j i) as [->|Hne].
      * rewrite Nat.eqb_refl. cbn [andb].
        destruct (Nat.ltb_spec (Z.to_nat i) (List.length d));
          destruct (Z.ltb_spec i (Z.of_nat (List.length d)));
          try reflexivity; lia.
      * destruct (Nat.eqb_spec (Z.to_nat j) (Z.to_nat i)); [lia|].
        reflexivity.
Qed.

Lemma read_write_other (d : list Z) (i v j : Z) :
  j <> i -> read (write d i v) j = read d j.
Proof.
  intros H. rewrite read_write.
  destruct (Z.eqb_spec j i); [contradiction | reflexivity].
Qed.

Lemma get_write_other (d : list Z) (i v j : Z) :
  j <> i -> get (write d i v) j = get d j.
Proof. intros H. unfold get. now rewrite read_write_other. Qed.

(** Where a read succeeds, so does every read at a smaller index that is
    not negative: the channel reads of [composite] are in range whenever
    the alpha read of the pixel is. *)
Lemma read_below (d : list Z) (i j v : Z) :
  read d j = Some v -> (0 <= i <= j)%Z -> exists u, read d i = Some u.
Proof.
  unfold read. intros H Hi.
  destruct (Z.ltb_spec j 0); [discriminate|].
  destruct (Z.ltb_spec i 0); [lia|].
  assert (Hlt : (Z.to_nat j < List.length d)%nat)
    by (apply nth_error_Some; congruence).
  destruct (nth_error d (Z.to_nat i)) as [u|] eqn:E; [now exists u|].
  apply nth_error_None in E. lia.
Qed.

Lemma In_indices (n i : Z) : In i (indices n) <-> (0 <= i < n)%Z.
Proof.
  unfold indices. rewrite in_map_iff. split.
  - intros (k & <- & Hk). apply in_seq in Hk. lia.
  - intros H. exists (Z.to_nat i). split; [lia|]. apply in_seq. lia.
Qed.

Lemma NoDup_indices (n : Z) : NoDup (indices n).
Proof.
  unfold indices. apply Finite.Injective_map_NoDup; [|apply seq_NoDup].
  intros u v H. lia.
Qed.

(** A loop over [l] whose rounds for the elements other than [a] leave
    the byte [j] alone. *)
Lemma fold_left_untouched {A : Type}
    (f : list Z -> A -> list Z) (l : list A) (j : Z) :
  (forall a d, In a l -> read (f d a) j = read d j) ->
  forall d, read (fold_left f l d) j = read d j.
Proof.
  induction l as [|a l IH]; intros H d; [reflexivity|].
  cbn [fold_left]. rewrite IH by (intros; apply H; now right).
  apply H. now left.
Qed.

Lemma fold_left_length {A : Type}
    (f : list Z -> A -> list Z) (l : list A) :
  (forall a d, List.length (f d a) = List.length d) ->
  forall d, List.length (fold_left f l d) = List.length d.
Proof.
  intros H. induction l as [|a l IH]; intros d; [reflexivity|].
  cbn [fold_left]. now rewrite IH, H.
Qed.

(** ** What one round of a loop leaves alone *)

Lemma indices_3 : indices 3 = [0; 1; 2]%Z.
Proof. reflexivity. Qed.

Lemma blend_pixel_length
    (fgImg : Image) (fgOpac : R) (bgIndex fgIndex : Z) (d : list Z) :
  List.length (blend_pixel fgImg fgOpac bgIndex fgIndex d) = List.length d.
Proof.
  unfold blend_pixel. destruct (read (data fgImg) (fgIndex + 3)); [|reflexivity].
  cbv zeta. destruct (Reqb _ 0); [reflexivity|].
  destruct (Reqb _ 1); [now rewrite !write_length|].
  destruct (read d (bgIndex + 3)); [|reflexivity].
  destruct (Rgtb _ 0); [|reflexivity].
  rewrite write_length. apply fold_left_length.
  intros c d'. apply write_length.
Qed.

(** [blend_pixel] stores only into the four bytes from [bgIndex] on. *)
Lemma blend_pixel_other
    (fgImg : Image) (fgOpac : R) (bgIndex fgIndex : Z) (d : list Z) (j : Z) :
  (j < bgIndex \/ bgIndex + 4 <= j)%Z ->
  read (blend_pixel fgImg fgOpac bgIndex fgIndex d) j = read d j.
Proof.
  intros Hj. unfold blend_pixel.
  destruct (read (data fgImg) (fgIndex + 3)); [|reflexivity].
  cbv zeta. destruct (Reqb _ 0); [reflexivity|].
  destruct (Reqb _ 1); [rewrite !read_write_other by lia; reflexivity|].
  destruct (read d (bgIndex + 3)); [|reflexivity].
  destruct (Rgtb _ 0); [|reflexivity].
  rewrite read_write_other by lia. apply fold_left_untouched.
  intros c d' Hc. apply In_indices in Hc. unfold blend_channel.
  apply read_write_other. lia.
Qed.

Section Frame.

Variable bgWidth bgHeight : Z.
Variable fgImg : Image.
Variable fgOpac : R.
Variable fgPos : Pos.

Lemma composite_pixel_length (fgY : Z) (d : list Z) (fgX : Z) :
  List.length (composite_pixel bgWidth fgImg fgOpac fgPos fgY d fgX)
  = List.length d.
Proof.
  unfold composite_pixel. cbv zeta.
  destruct (_ || _)%bool; [reflexivity | apply blend_pixel_length].
Qed.

Lemma composite_row_length (d : list Z) (fgY : Z) :
  List.length (composite_row bgWidth bgHeight fgImg fgOpac fgPos d fgY)
  = List.length d.
Proof.
  unfold composite_row. cbv zeta. destruct (_ || _)%bool; [reflexivity|].
  apply fold_left_length. intros. apply composite_pixel_length.
Qed.

(** The round for the foreground pixel in column [fgX] of row [fgY]
    leaves alone the bytes of every background pixel but the one under
    it. *)
Lemma composite_pixel_other (fgY fgX : Z) (d : list Z) (Y X c : Z) :
  (0 <= X < bgWidth)%Z -> (0 <= c < 4)%Z ->
  (fgY + pos_y fgPos <> Y \/ fgX + pos_x fgPos <> X)%Z ->
  read (composite_pixel bgWidth fgImg fgOpac fgPos fgY d fgX)
       ((Y * bgWidth + X) * 4 + c)
  = read d ((Y * bgWidth + X) * 4 + c).
Proof.
  intros HX Hc Hne. unfold composite_pixel. cbv zeta.
  destruct (Z.ltb_spec (fgX + pos_x fgPos) 0) as [|H0]; [reflexivity|].
  destruct (Z.geb_spec (fgX + pos_x fgPos) bgWidth) as [|H1]; [reflexivity|].
  cbn [orb]. apply blend_pixel_other. unfold bgIndex_of.
  set (bgY := (fgY + pos_y fgPos)%Z) in *.
  set (bgX := (fgX + pos_x fgPos)%Z) in *.
  assert (Hk : (Y * bgWidth + X <> bgY * bgWidth + bgX)%Z).
  { intros E. destruct (Z.lt_trichotomy Y bgY) as [Hlt | [-> | Hgt]].
    - nia.
    - destruct Hne as [Hne | Hne]; [now apply Hne | apply Hne; lia].
    - nia. }
  lia.
Qed.

Lemma composite_row_other (fgY : Z) (d : list Z) (Y X c : Z) :
  (0 <= X < bgWidth)%Z -> (0 <= c < 4)%Z ->
  (fgY + pos_y fgPos <> Y)%Z ->
  read (composite_row bgWidth bgHeight fgImg fgOpac fgPos d fgY)
       ((Y * bgWidth + X) * 4 + c)
  = read d ((Y * bgWidth + X) * 4 + c).
Proof.
  intros HX Hc Hne. unfold composite_row. cbv zeta.
  destruct (_ || _)%bool; [reflexivity|].
  apply fold_left_untouched. intros fgX d' _.
  apply composite_pixel_other; auto.
Qed.

End Frame.

End CompositingFacts.

Section CompositeTheorems.

Import Compositing.

Lemma Reqb_true (u v : R) : u = v -> Reqb u v = true.
Proof. intros H. unfold Reqb. destruct (Req_EM_T u v); [reflexivity | easy]. Qed.

Lemma Reqb_false (u v : R) : u <> v -> Reqb u v = false.
Proof. intros H. unfold Reqb. destruct (Req_EM_T u v); [easy | reflexivity]. Qed.

(** The result of [composite] when it does not throw and the opacity is
    not [0]. *)
Lemma composite_runs (bgImg fgImg : Image) (fgOpac : R) (fgPos : Pos) :
  width bgImg <> 0%Z -> height bgImg <> 0%Z -> fgOpac <> 0 ->
  composite bgImg fgImg fgOpac fgPos
  = Some (fold_left
            (composite_row (width bgImg) (height bgImg) fgImg fgOpac fgPos)
            (indices (height fgImg)) (data bgImg)).
Proof.
  intros Hw Hh Ho. unfold composite.
  destruct (Z.eqb_spec (width bgImg) 0); [contradiction|].
  destruct (Z.eqb_spec (height bgImg) 0); [contradiction|].
  cbn [orb]. now rewrite Reqb_false.
Qed.

(** X19: [composite] keeps the length of [bgImg.data] and changes no byte
    of a background pixel that the foreground, placed at [fgPos], does not
    cover, nor of a pixel in a row beyond the height of the background. *)
Theorem composite_frame
    (bgImg fgImg : Image) (fgOpac : R) (fgPos : Pos) (d' : list Z) :
  composite bgImg fgImg fgOpac fgPos = Some d' ->
  List.length d' = List.length (data bgImg) /\
  forall Y X c,
    (0 <= X < width bgImg)%Z -> (0 <= c < 4)%Z ->
    ~ (covered fgImg fgPos Y X /\ (0 <= Y < height bgImg)%Z) ->
    byte_at (width bgImg) d' Y X c = byte_at (width bgImg) (data bgImg) Y X c.
Proof.
  unfold composite. destruct (_ || _)%bool; [discriminate|].
  destruct (Reqb fgOpac 0); intros [= <-]; [now split|]. split.
  - apply fold_left_length. intros. apply composite_row_length.
  - intros Y X c HX Hc Hcov. unfold byte_at.
    apply fold_left_untouched. intros fgY d HfgY.
    apply In_indices in HfgY.
    destruct (Z.eq_dec (fgY + pos_y fgPos) Y) as [HY|HY];
      [|now apply composite_row_other].
    unfold composite_row. cbv zeta.
    destruct (Z.ltb_spec (fgY + pos_y fgPos) 0); [reflexivity|].
    destruct (Z.geb_spec (fgY + pos_y fgPos) (height bgImg)); [reflexivity|].
    cbn [orb]. apply fold_left_untouched. intros fgX d0 HfgX.
    apply In_indices in HfgX. apply composite_pixel_other; auto.
    right. intros HXe. apply Hcov. unfold covered. lia.
Qed.

(** ** Each background pixel on its own *)

(** On the four bytes of its pixel, the result of [blend_pixel] depends
    only on those four bytes and on the length of the array. *)
Lemma blend_pixel_local
    (fgImg : Image) (fgOpac : R) (bgIndex fgIndex : Z) (d1 d2 : list Z) :
  List.length d1 = List.length d2 ->
  (forall c, (0 <= c < 4)%Z -> read d1 (bgIndex + c) = read d2 (bgIndex + c)) ->
  forall c, (0 <= c < 4)%Z ->
    read (blend_pixel fgImg fgOpac bgIndex fgIndex d1) (bgIndex + c)
    = read (blend_pixel fgImg fgOpac bgIndex fgIndex d2) (bgIndex + c).
Proof.
  intros Hlen H c Hc.
  assert (G : forall k, (0 <= k < 4)%Z ->
                get d1 (bgIndex + k) = get d2 (bgIndex + k))
    by (intros k Hk; unfold get; now rewrite H).
  pose proof (G 0%Z ltac:(lia)) as G0. rewrite Z.add_0_r in G0.
  unfold blend_pixel.
  destruct (read (data fgImg) (fgIndex + 3)); [|now apply H].
  cbv zeta. destruct (Reqb _ 0); [now apply H|].
  destruct (Reqb _ 1).
  - rewrite !read_write, !write_length, Hlen. now rewrite (H c Hc).
  - rewrite <- (H 3%Z) by lia. destruct (read d1 (bgIndex + 3)); [|now apply H].
    destruct (Rgtb _ 0); [|now apply H].
    rewrite indices_3. cbn [fold_left]. unfold blend_channel.
    rewrite !Z.add_0_r.
    rewrite !get_write_other by lia.
    rewrite G0, (G 1%Z), (G 2%Z) by lia.
    rewrite !read_write, !write_length, Hlen. now rewrite (H c Hc).
Qed.

(** The bytes of a covered background pixel after [composite] are those
    that [blend_pixel] gives when it is run on the original contents of
    [bgImg.data] with the foreground pixel over it: no other round of the
    two loops has an influence on them. *)
Lemma composite_covered_pixel
    (bgImg fgImg : Image) (fgOpac : R) (fgPos : Pos) (Y X c : Z) :
  fgOpac <> 0 ->
  (0 <= X < width bgImg)%Z -> (0 <= Y < height bgImg)%Z ->
  covered fgImg fgPos Y X -> (0 <= c < 4)%Z ->
  exists d',
    composite bgImg fgImg fgOpac fgPos = Some d' /\
    byte_at (width bgImg) d' Y X c
    = byte_at (width bgImg)
        (blend_pixel fgImg fgOpac (bgIndex_of (width bgImg) Y X)
           (fgIndex_of fgImg (Y - pos_y fgPos) (X - pos_x fgPos))
           (data bgImg))
        Y X c.
Proof.
  intros Ho HX HY [HcX HcY] Hc.
  rewrite (composite_runs bgImg fgImg fgOpac fgPos ltac:(lia) ltac:(lia) Ho).
  eexists. split; [reflexivity|].
  set (W := width bgImg) in *. set (H := height bgImg) in *.
  set (fx := (X - pos_x fgPos)%Z) in *. set (fy := (Y - pos_y fgPos)%Z) in *.
  set (row := composite_row W H fgImg fgOpac fgPos).
  set (pix := composite_pixel W fgImg fgOpac fgPos fy).
  unfold byte_at, bgIndex_of.
  (* the rows before and after [fy] *)
  assert (Hfy : In fy (indices (height fgImg))) by (apply In_indices; lia).
  destruct (in_split _ _ Hfy) as (l1 & l2 & El).
  pose proof (NoDup_indices (height fgImg)) as Nd. rewrite El in Nd.
  apply NoDup_remove_2 in Nd.
  assert (Hrows : forall k fgY d, (0 <= k < 4)%Z -> In fgY (l1 ++ l2) ->
             read (row d fgY) ((Y * W + X) * 4 + k)
             = read d ((Y * W + X) * 4 + k)).
  { intros k fgY d Hk Hin. apply composite_row_other; auto.
    intros E. apply Nd. replace fy with fgY by (unfold fy; lia). exact Hin. }
  rewrite El, fold_left_app. cbn [fold_left].
  rewrite fold_left_untouched
    by (intros; apply Hrows; [lia | apply in_or_app; now right]).
  set (d1 := fold_left row l1 (data bgImg)).
  assert (Hd1 : forall k, (0 <= k < 4)%Z ->
             read d1 ((Y * W + X) * 4 + k)
             = read (data bgImg) ((Y * W + X) * 4 + k)).
  { intros k Hk. apply fold_left_untouched.
    intros; apply Hrows; [lia | apply in_or_app; now left]. }
  assert (Ld1 : List.length d1 = List.length (data bgImg))
    by (apply fold_left_length; intros; apply composite_row_length).
  (* the row [fy]: the pixels before and after [fx] *)
  unfold row at 1. unfold composite_row. cbv zeta.
  replace (fy + pos_y fgPos)%Z with Y by (unfold fy; lia).
  destruct (Z.ltb_spec Y 0); [lia|]. destruct (Z.geb_spec Y H); [lia|].
  cbn [orb]. fold pix.
  assert (Hfx : In fx (indices (width fgImg))) by (apply In_indices; lia).
  destruct (in_split _ _ Hfx) as (m1 & m2 & Em).
  pose proof (NoDup_indices (width fgImg)) as Ndm. rewrite Em in Ndm.
  apply NoDup_remove_2 in Ndm.
  assert (Hpix : forall k fgX d, (0 <= k < 4)%Z -> In fgX (m1 ++ m2) ->
             read (pix d fgX) ((Y * W + X) * 4 + k)
             = read d ((Y * W + X) * 4 + k)).
  { intros k fgX d Hk Hin. apply composite_pixel_other; auto. right.
    intros E. apply Ndm. replace fx with fgX by (unfold fx; lia). exact Hin. }
  rewrite Em, fold_left_app. cbn [fold_left].
  rewrite fold_left_untouched
    by (intros; apply Hpix; [lia | apply in_or_app; now right]).
  set (d2 := fold_left pix m1 d1).
  assert (Hd2 : forall k, (0 <= k < 4)%Z ->
             read d2 ((Y * W + X) * 4 + k)
             = read (data bgImg) ((Y * W + X) * 4 + k)).
  { intros k Hk. rewrite <- Hd1 by exact Hk. apply fold_left_untouched.
    intros; apply Hpix; [lia | apply in_or_app; now left]. }
  assert (Ld2 : List.length d2 = List.length (data bgImg)).
  { rewrite <- Ld1. apply fold_left_length.
    intros; apply composite_pixel_length. }
  (* the round for the pixel itself *)
  unfold pix at 1. unfold composite_pixel. cbv zeta.
  replace (fx + pos_x fgPos)%Z with X by (unfold fx; lia).
  replace (fy + pos_y fgPos)%Z with Y by (unfold fy; lia).
  destruct (Z.ltb_spec X 0); [lia|]. destruct (Z.geb_spec X W); [lia|].
  cbn [orb]. unfold bgIndex_of.
  now apply blend_pixel_local.
Qed.

Lemma composite_frame_witness :
  exists d',
    composite bg2 fg_opaque 1 second = Some d' /\
    List.length d' = 8%nat /\
    byte_at 2 d' 0 0 0 = Some 10%Z.
Proof.
  assert (E : composite bg2 fg_opaque 1 second
              = Some (fold_left (composite_row 2 1 fg_opaque 1 second)
                        (indices 1) (data bg2)))
    by (apply composite_runs; cbn; (lia || lra)).
  eexists. split; [exact E|].
  destruct (composite_frame bg2 fg_opaque 1 second _ E) as [L F].
  split; [rewrite L; reflexivity|].
  change 2%Z with (width bg2). rewrite F; [reflexivity | cbn; lia | lia |].
  unfold covered. cbn. lia.
Defined.

(** X24: A foreground that lies entirely off the background (to the right
    of it, to the left, below or above) changes nothing: [composite]
    leaves [bgImg.data] as it was. *)
Theorem composite_off_background
    (bgImg fgImg : Image) (fgOpac : R) (fgPos : Pos) :
  (0 < width bgImg)%Z -> height bgImg <> 0%Z ->
  (width bgImg <= pos_x fgPos \/ pos_x fgPos + width fgImg <= 0 \/
   height bgImg <= pos_y fgPos \/ pos_y fgPos + height fgImg <= 0)%Z ->
  composite bgImg fgImg fgOpac fgPos = Some (data bgImg).
Proof.
  intros HW HH Hoff.
  destruct (composite bgImg fgImg fgOpac fgPos) as [d'|] eqn:E.
  2:{ unfold composite in E.
      destruct (Z.eqb_spec (width bgImg) 0); [lia|].
      destruct (Z.eqb_spec (height bgImg) 0); [lia|].
      cbn [orb] in E. destruct (Reqb fgOpac 0); discriminate. }
  f_equal.
  assert (Hsame : forall Y X c, (0 <= X < width bgImg)%Z -> (0 <= c < 4)%Z ->
            read d' ((Y * width bgImg + X) * 4 + c)
            = read (data bgImg) ((Y * width bgImg + X) * 4 + c)).
  { unfold composite in E. destruct (_ || _)%bool; [discriminate|].
    destruct (Reqb fgOpac 0); injection E as <-; [reflexivity|].
    intros Y X c HX Hc. apply fold_left_untouched. intros fgY d HfgY.
    apply In_indices in HfgY.
    destruct (Z.eq_dec (fgY + pos_y fgPos) Y) as [HY|HY];
      [|now apply composite_row_other].
    unfold composite_row. cbv zeta.
    destruct (Z.ltb_spec (fgY + pos_y fgPos) 0); [reflexivity|].
    destruct (Z.geb_spec (fgY + pos_y fgPos) (height bgImg)); [reflexivity|].
    cbn [orb]. apply fold_left_untouched. intros fgX d0 HfgX.
    apply In_indices in HfgX. apply composite_pixel_other; auto.
    right. lia. }
  apply nth_error_ext. intros k.
  set (q := (Z.of_nat k / 4)%Z).
  pose proof (Z.div_mod (Z.of_nat k) 4 ltac:(lia)) as Hk.
  pose proof (Z.mod_pos_bound (Z.of_nat k) 4 ltac:(lia)) as Hc.
  pose proof (Z.div_mod q (width bgImg) ltac:(lia)) as Hq.
  pose proof (Z.mod_pos_bound q (width bgImg) HW) as HX.
  specialize (Hsame (q / width bgImg)%Z (q mod width bgImg)%Z
                (Z.of_nat k mod 4)%Z HX Hc).
  replace ((q / width bgImg * width bgImg + q mod width bgImg) * 4
           + Z.of_nat k mod 4)%Z with (Z.of_nat k) in Hsame by (fold q in Hk; lia).
  unfold read in Hsame. destruct (Z.ltb_spec (Z.of_nat k) 0); [lia|].
  now rewrite Nat2Z.id in Hsame.
Qed.

Lemma composite_off_background_witness :
  composite bg2 fg_opaque 1 (mkPos 2 0) = Some (data bg2).
Proof.
  apply composite_off_background.
  - cbn. lia.
  - cbn. lia.
  - left. cbn. lia.
Defined.

(** X20: Every covered background pixel is the blend of its own original
    bytes with the foreground pixel over it: after [composite], its four
    bytes are those that the loop body gives on the original contents of
    [bgImg.data], whatever the other pixels are. *)
Theorem composite_pixelwise
    (bgImg fgImg : Image) (fgOpac : R) (fgPos : Pos) (Y X c : Z) :
  fgOpac <> 0 ->
  (0 <= X < width bgImg)%Z -> (0 <= Y < height bgImg)%Z ->
  covered fgImg fgPos Y X -> (0 <= c < 4)%Z ->
  exists d',
    composite bgImg fgImg fgOpac fgPos = Some d' /\
    byte_at (width bgImg) d' Y X c
    = byte_at (width bgImg)
        (blend_pixel fgImg fgOpac (bgIndex_of (width bgImg) Y X)
           (fgIndex_of fgImg (Y - pos_y fgPos) (X - pos_x fgPos))
           (data bgImg))
        Y X c.
Proof. apply composite_covered_pixel. Qed.

Lemma composite_pixelwise_witness :
  exists d',
    composite bg2 fg_opaque 1 second = Some d' /\
    byte_at (width bg2) d' 0 1 0
    = byte_at (width bg2)
        (blend_pixel fg_opaque 1 (bgIndex_of (width bg2) 0 1)
           (fgIndex_of fg_opaque (0 - pos_y second) (1 - pos_x second))
           (data bg2))
        0 1 0.
Proof.
  apply composite_pixelwise.
  - lra.
  - cbn. lia.
  - cbn. lia.
  - unfold covered. cbn. lia.
  - lia.
Defined.

(** Deciding the integer tests that a goal shows. *)
Ltac zdecide :=
  repeat match goal with
    | |- context [(?u =? ?v)%Z] => destruct (Z.eqb_spec u v); try lia
    | |- context [(?u <=? ?v)%Z] => destruct (Z.leb_spec u v); try lia
    | |- context [(?u <? ?v)%Z] => destruct (Z.ltb_spec u v); try lia
    end;
  cbn [andb].

(** X21: A fully opaque foreground pixel replaces the background pixel under
    it: with [fgOpac = 1] and a foreground alpha byte of [255], the three
    colour bytes become those of the foreground pixel (as a clamped array
    keeps them) and the alpha byte becomes [255]. *)
Theorem composite_opaque_pixel
    (bgImg fgImg : Image) (fgPos : Pos) (Y X : Z) :
  let bgIndex := bgIndex_of (width bgImg) Y X in
  let fgIndex := fgIndex_of fgImg (Y - pos_y fgPos) (X - pos_x fgPos) in
  (0 <= X < width bgImg)%Z -> (0 <= Y < height bgImg)%Z ->
  covered fgImg fgPos Y X ->
  (bgIndex + 3 < Z.of_nat (List.length (data bgImg)))%Z ->
  read (data fgImg) (fgIndex + 3) = Some 255%Z ->
  exists d',
    composite bgImg fgImg 1 fgPos = Some d' /\
    (forall c, (0 <= c < 3)%Z ->
       byte_at (width bgImg) d' Y X c
       = Some (clamp (get (data fgImg) (fgIndex + c)))) /\
    byte_at (width bgImg) d' Y X 3 = Some 255%Z.
Proof.
  intros bgIndex fgIndex HX HY Hcov Hlen Hfg.
  assert (H1 : (1 <> 0)%R) by lra.
  assert (Hbi : (0 <= bgIndex)%Z) by (unfold bgIndex, bgIndex_of; nia).
  assert (Hbyte : forall c, (0 <= c < 4)%Z ->
            byte_at (width bgImg)
              (blend_pixel fgImg 1 bgIndex fgIndex (data bgImg)) Y X c
            = if (c =? 3)%Z then Some 255%Z
              else Some (clamp (get (data fgImg) (fgIndex + c)))).
  { intros c Hc. unfold byte_at, blend_pixel. fold (bgIndex_of (width bgImg) Y X).
    fold bgIndex. rewrite Hfg. cbv zeta.
    rewrite Reqb_false by lra. rewrite Reqb_true by lra.
    rewrite !read_write, !write_length.
    assert (Hc' : (c = 0 \/ c = 1 \/ c = 2 \/ c = 3)%Z) by lia.
    destruct Hc' as [-> | [-> | [-> | ->]]]; zdecide;
      rewrite ?Z.add_0_r; reflexivity. }
  rewrite (composite_runs bgImg fgImg 1 fgPos ltac:(lia) ltac:(lia) H1).
  eexists. split; [reflexivity|]. split.
  - intros c Hc.
    destruct (composite_covered_pixel bgImg fgImg 1 fgPos Y X c H1 HX HY Hcov
                ltac:(lia)) as (d' & E & Hb).
    rewrite (composite_runs bgImg fgImg 1 fgPos ltac:(lia) ltac:(lia) H1) in E.
    injection E as <-. fold bgIndex fgIndex in Hb. rewrite Hb, Hbyte by lia.
    destruct (Z.eqb_spec c 3); [lia | reflexivity].
  - destruct (composite_covered_pixel bgImg fgImg 1 fgPos Y X 3 H1 HX HY Hcov
                ltac:(lia)) as (d' & E & Hb).
    rewrite (composite_runs bgImg fgImg 1 fgPos ltac:(lia) ltac:(lia) H1) in E.
    injection E as <-. fold bgIndex fgIndex in Hb. rewrite Hb, Hbyte by lia.
    reflexivity.
Qed.

Lemma composite_opaque_pixel_witness :
  exists d',
    composite bg2 fg_opaque 1 second = Some d' /\
    byte_at 2 d' 0 1 0 = Some 1%Z /\
    byte_at 2 d' 0 1 3 = Some 255%Z.
Proof.
  destruct (composite_opaque_pixel bg2 fg_opaque second 0 1)
    as (d' & E & Hrgb & Ha).
  - cbn. lia.
  - cbn. lia.
  - unfold covered. cbn. lia.
  - cbn. lia.
  - reflexivity.
  - exists d'. split; [exact E|]. split; [|exact Ha].
    exact (Hrgb 0%Z ltac:(lia)).
Defined.

(** X22: A fully transparent foreground pixel (alpha byte [0]) leaves the
    background pixel under it as it was. *)
Theorem composite_transparent_pixel
    (bgImg fgImg : Image) (fgOpac : R) (fgPos : Pos) (Y X : Z) :
  let fgIndex := fgIndex_of fgImg (Y - pos_y fgPos) (X - pos_x fgPos) in
  (0 <= X < width bgImg)%Z -> (0 <= Y < height bgImg)%Z ->
  covered fgImg fgPos Y X ->
  read (data fgImg) (fgIndex + 3) = Some 0%Z ->
  exists d',
    composite bgImg fgImg fgOpac fgPos = Some d' /\
    forall c, (0 <= c < 4)%Z ->
      byte_at (width bgImg) d' Y X c
      = byte_at (width bgImg) (data bgImg) Y X c.
Proof.
  intros fgIndex HX HY Hcov Hfg.
  destruct (Req_EM_T fgOpac 0) as [-> | Ho].
  - exists (data bgImg). split; [|reflexivity]. unfold composite.
    destruct (Z.eqb_spec (width bgImg) 0); [lia|].
    destruct (Z.eqb_spec (height bgImg) 0); [lia|].
    cbn [orb]. now rewrite Reqb_true.
  - rewrite (composite_runs bgImg fgImg fgOpac fgPos ltac:(lia) ltac:(lia) Ho).
    eexists. split; [reflexivity|]. intros c Hc.
    destruct (composite_covered_pixel bgImg fgImg fgOpac fgPos Y X c Ho HX HY
                Hcov Hc) as (d' & E & Hb).
    rewrite (composite_runs bgImg fgImg fgOpac fgPos ltac:(lia) ltac:(lia) Ho)
      in E.
    injection E as <-. rewrite Hb. unfold blend_pixel. fold fgIndex.
    rewrite Hfg. cbv zeta. rewrite Reqb_true; [reflexivity|].
    unfold Rdiv. ring.
Qed.

Lemma composite_transparent_pixel_witness :
  exists d',
    composite bg2 fg_clear 1 second = Some d' /\
    forall c, (0 <= c < 4)%Z ->
      byte_at (width bg2) d' 0 1 c = byte_at (width bg2) (data bg2) 0 1 c.
Proof.
  apply (composite_transparent_pixel bg2 fg_clear 1 second 0 1).
  - cbn. lia.
  - cbn. lia.
  - unfold covered. cbn. lia.
  - reflexivity.
Defined.

(** ** Blended values are bytes *)

Lemma round_byte (u : R) : 0 <= u <= 255 -> (0 <= round u <= 255)%Z.
Proof.
  intros [H0 H1]. unfold round.
  destruct (base_Int_part (u + / 2)) as [Hle Hgt].
  split.
  - assert (H : IZR (-1) < IZR (Int_part (u + / 2))) by (cbn; lra).
    apply lt_IZR in H. lia.
  - assert (H : IZR (Int_part (u + / 2)) < IZR 256) by (cbn; lra).
    apply lt_IZR in H. lia.
Qed.

Lemma IZR_byte (v : Z) : (0 <= v <= 255)%Z -> 0 <= IZR v <= 255.
Proof. intros [H0 H1]. apply IZR_le in H0, H1. lra. Qed.

(** X23: With bytes in both images and an opacity between [0] and [1], the
    value that the blending stores for a colour channel is the rounded
    weighted average itself, a number from [0] to [255]: the clamping of
    the array never takes effect.  The same holds for the blended alpha
    [Math.round(outAlpha * 255)]. *)
Theorem blend_channel_is_byte
    (fgImg : Image) (bgIndex fgIndex fgA bgA : Z) (fgOpac : R)
    (d : list Z) (c : Z) :
  let fgAlpha := IZR fgA / 255 * fgOpac in
  let bgAlpha := IZR bgA / 255 in
  let outAlpha := fgAlpha + bgAlpha * (1 - fgAlpha) in
  let blended :=
    round ((IZR (get (data fgImg) (fgIndex + c)) * fgAlpha
            + IZR (get d (bgIndex + c)) * bgAlpha * (1 - fgAlpha))
           / outAlpha) in
  (0 <= get (data fgImg) (fgIndex + c) <= 255)%Z ->
  (0 <= get d (bgIndex + c) <= 255)%Z ->
  (0 <= fgA <= 255)%Z -> (0 <= bgA <= 255)%Z ->
  0 <= fgOpac <= 1 -> 0 < outAlpha ->
  (0 <= bgIndex + c < Z.of_nat (List.length d))%Z ->
  read (blend_channel fgImg bgIndex fgIndex fgAlpha bgAlpha outAlpha d c)
       (bgIndex + c) = Some blended /\
  (0 <= blended <= 255)%Z /\
  (0 <= round (outAlpha * 255) <= 255)%Z.
Proof.
  intros fgAlpha bgAlpha outAlpha blended HF HB HfA HbA Ho Hout Hin.
  apply IZR_byte in HF, HB, HfA, HbA.
  set (F := IZR (get (data fgImg) (fgIndex + c))) in *.
  set (B := IZR (get d (bgIndex + c))) in *.
  assert (Hfa : 0 <= fgAlpha <= 1).
  { unfold fgAlpha. assert (0 <= IZR fgA / 255 <= 1) by (split; lra). nra. }
  assert (Hba : 0 <= bgAlpha <= 1) by (unfold bgAlpha; split; lra).
  assert (Hnum : 0 <= F * fgAlpha + B * bgAlpha * (1 - fgAlpha)
                 <= 255 * outAlpha).
  { assert (0 <= bgAlpha * (1 - fgAlpha)) by nra.
    assert (0 <= F * fgAlpha <= 255 * fgAlpha) by nra.
    assert (0 <= B * (bgAlpha * (1 - fgAlpha)) <= 255 * (bgAlpha * (1 - fgAlpha)))
      by nra.
    unfold outAlpha. nra. }
  assert (Hval : 0 <= (F * fgAlpha + B * bgAlpha * (1 - fgAlpha)) / outAlpha
                 <= 255).
  { split.
    - apply Rle_mult_inv_pos; lra.
    - apply Rmult_le_reg_r with outAlpha; [lra|].
      unfold Rdiv. rewrite Rmult_assoc, Rinv_l by lra. lra. }
  assert (Hb : (0 <= blended <= 255)%Z) by (apply round_byte; exact Hval).
  assert (Ha : (0 <= round (outAlpha * 255) <= 255)%Z).
  { apply round_byte. assert (outAlpha <= 1) by (unfold outAlpha; nra). nra. }
  split; [|split; [exact Hb | exact Ha]].
  unfold blend_channel. rewrite read_write. fold F B blended.
  rewrite Z.eqb_refl. destruct (Z.leb_spec 0 (bgIndex + c)); [|lia].
  destruct (Z.ltb_spec (bgIndex + c) (Z.of_nat (List.length d))); [|lia].
  cbn [andb]. unfold clamp. f_equal. lia.
Qed.

Lemma blend_channel_is_byte_witness :
  (0 <= round ((IZR (get (data fg_opaque) (0 + 0)) * (IZR 255 / 255 * (1 / 2))
                + IZR (get (data bg2) (4 + 0)) * (IZR 255 / 255)
                  * (1 - IZR 255 / 255 * (1 / 2)))
               / (IZR 255 / 255 * (1 / 2)
                  + IZR 255 / 255 * (1 - IZR 255 / 255 * (1 / 2))))
   <= 255)%Z.
Proof.
  assert (EF : get (data fg_opaque) (0 + 0) = 1%Z) by reflexivity.
  assert (EB : get (data bg2) (4 + 0) = 40%Z) by reflexivity.
  apply (blend_channel_is_byte fg_opaque 4 0 255 255 (1 / 2) (data bg2) 0).
  - rewrite EF. lia.
  - rewrite EB. lia.
  - lia.
  - lia.
  - lra.
  - lra.
  - change (List.length (data bg2)) with 8%nat. lia.
Defined.

End CompositeTheorems.
